(** * Animal record service (main.py): shallow embedding and verification

    The service keeps one SQL table [animals] (columns [id], [name],
    [created_at]) and exposes create / read / update / delete, a search
    with an approximate fallback, and a listing with date filter and sort.

    Modelling conventions.
    - Text is [string]; a character is a code point in U+0000..U+00FF
      (Stdlib's [ascii]), compared by code point as SQLite's BINARY
      collation does.
    - Python's [str.lower] and SQLite's [lower()] are different functions:
      the first also folds the Latin-1 capitals, the second only A..Z.
      Both are embedded ([py_lower], [sql_lower]).
    - The table is the list of its rows in rowid order, the order in which
      an unordered [SELECT] scans it.
    - A request handler is a computation in the [session] monad: it reads
      and commits the table and may raise; a raised exception leaves the
      table as it was, since nothing is committed.
    - What the handlers take from libraries is embedded from the
      libraries' behaviour: [re.match], [str.lower],
      [difflib.SequenceMatcher], SQLite's [lower()], [LIKE], [ORDER BY],
      rowid assignment and UNIQUE constraint.  [datetime.fromisoformat]
      stays a parameter.
    - Every row has a [created_at] (the column default sets it on
      insert).
    - SQLite's bounds that a request can reach are embedded: an id
      outside the signed 64-bit range cannot be bound to a statement
      ([OverflowError]), a LIKE pattern may have 50000 bytes
      ([OperationalError] beyond), and a table whose largest rowid is
      2^63-1 hands out rowids drawn at random. *)

From stdpp Require Import base tactics option list numbers strings sorting gmap.
From Stdlib Require Import Ascii ZArith QArith Lia.

Local Open Scope Z_scope.

(** ** Exceptions and results *)

(** The five exception classes of main.py, and the library exceptions
    its handlers can let through: [ValueError] from
    [datetime.fromisoformat], [IntegrityError] from the UNIQUE constraint
    on [name] at commit, [OverflowError] from binding an int that SQLite
    cannot hold, [OperationalError] from a statement that SQLite
    abandons. *)
Inductive exn : Type :=
  | AnimalNotFound
  | InvalidNameFormat
  | DuplicateName
  | InvalidSortParameter
  | SearchNotFound
  | ValueError
  | IntegrityError
  | OverflowError
  | OperationalError.

Global Instance exn_eq_dec : EqDecision exn.
Proof. solve_decision. Defined.

Inductive result (A : Type) : Type :=
  | Ok (a : A)
  | Err (e : exn).
Global Arguments Ok {A} a.
Global Arguments Err {A} e.

(** ** Characters and case folding *)

Definition code (c : ascii) : N := N_of_ascii c.

Definition in_range (lo hi : N) (c : ascii) : bool :=
  ((lo <=? code c) && (code c <=? hi))%N.

Definition shift32 (c : ascii) : ascii := ascii_of_N (code c + 32).

(** The character class [[A-Za-z\-]] of the name pattern. *)
Definition name_char (c : ascii) : bool :=
  in_range 65 90 c || in_range 97 122 c || (code c =? 45)%N.

(** [str.lower] on one code point below U+0100: A..Z, and the Latin-1
    capitals U+00C0..U+00D6 and U+00D8..U+00DE, move up by 32. *)
Definition py_lower_char (c : ascii) : ascii :=
  if in_range 65 90 c || in_range 192 214 c || in_range 216 222 c
  then shift32 c else c.

(** SQLite's [lower()] and the folding inside [LIKE]: A..Z only. *)
Definition sql_lower_char (c : ascii) : ascii :=
  if in_range 65 90 c then shift32 c else c.

(** Code points below U+0080. *)
Definition is_ascii (c : ascii) : bool := (code c <? 128)%N.

Fixpoint map_chars (f : ascii → ascii) (s : string) : string :=
  match s with
  | EmptyString => EmptyString
  | String c s' => String (f c) (map_chars f s')
  end.

Definition py_lower : string → string := map_chars py_lower_char.
Definition sql_lower : string → string := map_chars sql_lower_char.

Fixpoint all_chars (p : ascii → bool) (s : string) : bool :=
  match s with
  | EmptyString => true
  | String c s' => p c && all_chars p s'
  end.

(** [name[-1]]; [None] stands for the IndexError on the empty string. *)
Fixpoint last_char (s : string) : option ascii :=
  match s with
  | EmptyString => None
  | String c EmptyString => Some c
  | String _ s' => last_char s'
  end.

Definition space : ascii := " "%char.
Definition newline : ascii := "010"%char.

(** ** validate_name *)

(** [re.match(r"^[A-Za-z\-]+$", name)].  The greedy [+] takes the longest
    run of class characters; [$] then holds at the end of the string and
    also just before a newline that ends the string.  Giving characters
    back cannot help, since [$] never holds in front of a class
    character. *)
Fixpoint skip_name_chars (s : string) : string :=
  match s with
  | String c s' => if name_char c then skip_name_chars s' else s
  | EmptyString => EmptyString
  end.

Definition at_dollar (rest : string) : bool :=
  bool_decide (rest = EmptyString) || bool_decide (rest = String newline EmptyString).

Definition re_match_name (s : string) : bool :=
  match s with
  | EmptyString => false
  | String c s' => name_char c && at_dollar (skip_name_chars s')
  end.

Definition validate_name (name : string) : result string :=
  if (String.length name <? 2)%nat then Err InvalidNameFormat
  else if (30 <? String.length name)%nat then Err InvalidNameFormat
  else if bool_decide (last_char name = Some space) then Err InvalidNameFormat
  else if negb (re_match_name name) then Err InvalidNameFormat
  else Ok name.

(** The validator's contract as the specification words it: a name is
    rejected when it is too short, too long, ends in a space, or holds a
    character that is neither a letter nor a hyphen. *)
Definition spec_name_rejected (name : string) : bool :=
  (String.length name <? 2)%nat
  || (30 <? String.length name)%nat
  || bool_decide (last_char name = Some space)
  || negb (all_chars name_char name).

(** ** The table and the session monad *)

(** A [datetime] is the count of microseconds of its wall-clock
    reading; only the order is used, and it is the order of the text
    form in which SQLite stores and compares the column. *)
Abbreviation datetime := Z (only parsing).

Module Animal.
Record t : Type := mk { id : Z; name : string; created_at : datetime }.
End Animal.

Global Instance Animal_eq_dec : EqDecision Animal.t.
Proof. solve_decision. Defined.

Abbreviation table := (list Animal.t) (only parsing).

(** A handler runs against the table and either returns a value or
    raises; the second component is the table after the request. *)
Definition session (A : Type) : Type := table → result A * table.

Global Instance session_ret : MRet session := λ A a db, (Ok a, db).

Global Instance session_bind : MBind session := λ A B k m db,
  match m db with
  | (Ok a, db') => k a db'
  | (Err e, db') => (Err e, db')
  end.

Definition raise {A} (e : exn) : session A := λ db, (Err e, db).

(** [validate_name] is pure; a handler calls it and lets it raise. *)
Definition lift {A} (r : result A) : session A :=
  match r with Ok a => mret a | Err e => raise e end.

(** [db.query(Animal).filter(...).all()] *)
Definition query_all (P : Animal.t → Prop) `{!∀ a, Decision (P a)} : session table :=
  λ db, (Ok (filter P db), db).

(** [db.query(Animal).filter(...).first()] *)
Definition query_first (P : Animal.t → Prop) `{!∀ a, Decision (P a)}
  : session (option Animal.t) :=
  λ db, (Ok (head (filter P db)), db).

(** An INTEGER of SQLite has 64 signed bits.  The [id] of a request is
    a Python int of any size; the driver refuses to bind one that does
    not fit, with OverflowError, when the statement is executed. *)
Definition min_int64 : Z := - 2 ^ 63.
Definition max_int64 : Z := 2 ^ 63 - 1.

Definition in_int64 (i : Z) : Prop := min_int64 ≤ i ≤ max_int64.

Global Instance in_int64_dec i : Decision (in_int64 i).
Proof. unfold in_int64. apply _. Defined.

Definition bind_int (i : Z) : session Z :=
  if decide (in_int64 i) then mret i else raise OverflowError.

(** The largest rowid in use, [None] in an empty table. *)
Definition largest_rowid (db : table) : option Z :=
  match Animal.id <$> db with
  | [] => None
  | i :: ids => Some (foldr Z.max i ids)
  end.

Definition max_rowid : Z := max_int64.

(** What SQLite makes of 64 random bits [w] when it looks for a free
    rowid: [v &= (MAX_ROWID>>1); v++], a value from 1 to 2^62. *)
Definition random_rowid (w : Z) : Z := Z.land w (Z.shiftr max_rowid 1) + 1.

(** The rowid SQLite gives to an inserted row: 1 in an empty table, else
    one more than the largest in use.  When the largest is 2^63-1 it
    draws candidates at random, [draws 0], [draws 1], ... being what its
    generator hands out, takes the first that no row has, and gives up
    after 100 of them ([None], the error SQLITE_FULL). *)
Definition new_rowid (draws : nat → Z) (db : table) : option Z :=
  match largest_rowid db with
  | None => Some 1
  | Some largest =>
    if decide (largest < max_rowid) then Some (largest + 1)
    else head (filter (λ v, v ∉ Animal.id <$> db) (random_rowid ∘ draws <$> seq 0 100))
  end.

(** The place of a row in the table: in front of the first row with a
    larger id, so after every row when its id is the largest. *)
Fixpoint place_row (animal : Animal.t) (db : table) : table :=
  match db with
  | [] => [animal]
  | a :: db' =>
    if decide (Animal.id animal < Animal.id a) then animal :: a :: db'
    else a :: place_row animal db'
  end.

(** [db.add(animal); db.commit(); db.refresh(animal)]: INSERT.  SQLite
    picks the rowid; the column default fills [created_at] with the
    clock reading [now]; the UNIQUE constraint on [name] refuses a name
    already stored. *)
Definition insert_row (now : datetime) (draws : nat → Z) (name : string)
  : session Animal.t :=
  λ db,
    match new_rowid draws db with
    | None => (Err OperationalError, db)
    | Some rowid =>
      if bool_decide (name ∈ Animal.name <$> db) then (Err IntegrityError, db)
      else let animal := Animal.mk rowid name now in
           (Ok animal, place_row animal db)
    end.

Definition set_name (name : string) (a : Animal.t) : Animal.t :=
  Animal.mk (Animal.id a) name (Animal.created_at a).

(** What SET name = ? WHERE id = ? does to one row. *)
Definition rename (id : Z) (name : string) (a : Animal.t) : Animal.t :=
  if bool_decide (Animal.id a = id) then set_name name a else a.

(** [animal.name = name; db.commit()]: UPDATE animals SET name = ?
    WHERE id = ?.  The UNIQUE constraint refuses the name when another
    row holds it. *)
Definition update_row (id : Z) (name : string) : session () :=
  λ db,
    if bool_decide (Exists (λ a, Animal.name a = name ∧ Animal.id a ≠ id) db)
    then (Err IntegrityError, db)
    else (Ok (), rename id name <$> db).

(** [db.delete(animal); db.commit()]: DELETE FROM animals WHERE id = ?. *)
Definition delete_row (id : Z) : session () :=
  λ db, (Ok (), filter (λ a, Animal.id a ≠ id) db).

(** ** get_animal, add_animal, update_animal, delete_animal *)

Definition get_animal (id : Z) : session Animal.t :=
  bind_int id;;
  animal ← query_first (λ a, Animal.id a = id);
  match animal with
  | None => raise AnimalNotFound
  | Some a => mret a
  end.

(** [now] is the clock reading and [draws] the random bits that the
    INSERT may consume. *)
Definition add_animal (now : datetime) (draws : nat → Z) (name : string)
  : session Animal.t :=
  name ← lift (validate_name name);
  dup ← query_first (λ a, sql_lower (Animal.name a) = py_lower name);
  match dup with
  | Some _ => raise DuplicateName
  | None => insert_row now draws name
  end.

Definition update_animal (id : Z) (name : string) : session Animal.t :=
  lift (validate_name name);;
  bind_int id;;
  animal ← query_first (λ a, Animal.id a = id);
  match animal with
  | None => raise AnimalNotFound
  | Some animal =>
    dup ← query_first (λ a, sql_lower (Animal.name a) = py_lower name
                            ∧ Animal.id a ≠ id);
    match dup with
    | Some _ => raise DuplicateName
    | None => update_row id name;; mret (set_name name animal)
    end
  end.

(** The body of the DELETE response, [{"message": ...}]; the literal
    holds the UTF-8 bytes of the Polish word. *)
Record confirmation : Type := Message { message : string }.

Definition deleted : confirmation := Message "Usunięto".

Definition delete_animal (id : Z) : session confirmation :=
  bind_int id;;
  animal ← query_first (λ a, Animal.id a = id);
  match animal with
  | None => raise AnimalNotFound
  | Some _ => delete_row id;; mret deleted
  end.

(** ** SQL LIKE *)

Definition percent : ascii := "%"%char.
Definition underscore : ascii := "_"%char.

(** SQLite's [LIKE] without ESCAPE (SQLAlchemy's [.like(pattern)] adds
    none): [%] stands for any run of characters, [_] for any one
    character, and every other pattern character for itself, upper and
    lower case A..Z taken as equal. *)
Fixpoint like (pattern s : string) : bool :=
  match pattern with
  | EmptyString => bool_decide (s = EmptyString)
  | String p pattern' =>
    if bool_decide (p = percent) then
      (fix any_run (s : string) : bool :=
         like pattern' s
         || match s with
            | EmptyString => false
            | String _ s' => any_run s'
            end) s
    else
      match s with
      | EmptyString => false
      | String c s' =>
        (bool_decide (p = underscore)
         || bool_decide (sql_lower_char p = sql_lower_char c))
        && like pattern' s'
      end
  end.

(** SQLite hands both operands of [LIKE] over as C strings, which end
    at the first U+0000. *)
Definition nul : ascii := "000"%char.

Fixpoint c_string (s : string) : string :=
  match s with
  | EmptyString => EmptyString
  | String c s' => if bool_decide (c = nul) then EmptyString else String c (c_string s')
  end.

Definition sql_like (s pattern : string) : bool := like (c_string pattern) (c_string s).

(** The pattern [f"%{name_lower}%"]. *)
Definition contains_pattern (name_lower : string) : string :=
  String percent (name_lower +:+ String percent EmptyString).

(** Substring test, the specification's reading of the first stage. *)
Fixpoint is_prefix (p s : string) : bool :=
  match p, s with
  | EmptyString, _ => true
  | String a p', String b s' => bool_decide (a = b) && is_prefix p' s'
  | String _ _, EmptyString => false
  end.

Fixpoint is_substring (p s : string) : bool :=
  is_prefix p s
  || match s with
     | EmptyString => false
     | String _ s' => is_substring p s'
     end.

(** ** difflib.SequenceMatcher(None, a, b).ratio() *)

Module SequenceMatcher.

(** A matching block [(i, j, k)]: [a[i:i+k] == b[j:j+k]]. *)
Abbreviation block := (nat * nat * nat)%type (only parsing).

Definition size (m : block) : nat := m.2.

(** Bookkeeping for the termination argument.  A block lies [inside]
    the part [a[alo:i]]; the run lengths of a row are [short] when
    none reaches back before [alo]; a work item [(alo, ahi, blo, bhi)]
    is [ordered] when [alo <= ahi], and its [weight] bounds the loop
    turns it can cause. *)
Definition inside (alo i : nat) (m : block) : Prop :=
  (alo ≤ m.1.1 ∧ m.1.1 + size m ≤ i)%nat.

Definition short (alo i : nat) (j2len : gmap nat nat) : Prop :=
  ∀ j k, j2len !! j = Some k → (k ≤ i - alo)%nat.

Definition weight (item : nat * nat * nat * nat) : nat :=
  2 * (item.1.1.2 - item.1.1.1) + 1.

Definition ordered (item : nat * nat * nat * nat) : Prop :=
  (item.1.1.1 ≤ item.1.1.2)%nat.

Section matcher.
Variables a b : list ascii.

(** [__chain_b]: for every element of [b] the ascending list of its
    positions.  No junk predicate is given, so [bjunk] stays empty;
    with [autojunk] on and [len(b) >= 200], an element occurring
    more than [len(b) // 100 + 1] times is dropped as popular. *)
Definition index_b : gmap ascii (list nat) :=
  foldl (λ (b2j : gmap ascii (list nat)) '(i, elt),
           <[elt := default [] (b2j !! elt) ++ [i]]> b2j)
        ∅ (imap pair b).

Definition chain_b : gmap ascii (list nat) :=
  let n := length b in
  if decide (200 ≤ n)%nat
  then filter (λ entry, (length entry.2 ≤ n / 100 + 1)%nat) index_b
  else index_b.

(** The inner [for j in b2j.get(a[i], nothing)] of
    [find_longest_match]: [continue] below [blo], [break] from [bhi]
    on; [j2len.get(j-1, 0)] is 0 at [j = 0]. *)
Fixpoint scan_row (j2len : gmap nat nat) (blo bhi i : nat) (js : list nat)
    (newj2len : gmap nat nat) (best : block) : gmap nat nat * block :=
  match js with
  | [] => (newj2len, best)
  | j :: js' =>
    if decide (j < blo)%nat then scan_row j2len blo bhi i js' newj2len best
    else if decide (bhi ≤ j)%nat then (newj2len, best)
    else
      let k := S (match j with O => O | S j' => default O (j2len !! j') end) in
      let best' := if decide (size best < k)%nat
                   then ((i + 1 - k)%nat, (j + 1 - k)%nat, k) else best in
      scan_row j2len blo bhi i js' (<[j := k]> newj2len) best'
  end.

Definition row (blo bhi : nat) (st : gmap nat nat * block) (i : nat)
  : gmap nat nat * block :=
  scan_row st.1 blo bhi i (default [] (a !! i ≫= (chain_b !!.))) ∅ st.2.

Definition same_at (i j : nat) : bool :=
  match a !! i, b !! j with
  | Some x, Some y => bool_decide (x = y)
  | _, _ => false
  end.

(** The two [while] loops that stretch the best match to the left
    and to the right; [isbjunk] is constantly false, so the later
    pair of loops, which stretches over junk, never runs. *)
Fixpoint extend_left (fuel alo blo : nat) (m : block) : block :=
  match fuel with
  | O => m
  | S fuel' =>
    let '(besti, bestj, bestsize) := m in
    if bool_decide (alo < besti)%nat && bool_decide (blo < bestj)%nat
       && same_at (besti - 1) (bestj - 1)
    then extend_left fuel' alo blo ((besti - 1)%nat, (bestj - 1)%nat, S bestsize)
    else m
  end.

Fixpoint extend_right (fuel ahi bhi : nat) (m : block) : block :=
  match fuel with
  | O => m
  | S fuel' =>
    let '(besti, bestj, bestsize) := m in
    if bool_decide (besti + bestsize < ahi)%nat
       && bool_decide (bestj + bestsize < bhi)%nat
       && same_at (besti + bestsize) (bestj + bestsize)
    then extend_right fuel' ahi bhi (besti, bestj, S bestsize)
    else m
  end.

Definition find_longest_match (alo ahi blo bhi : nat) : block :=
  let best := (foldl (row blo bhi) (∅, (alo, blo, O)) (seq alo (ahi - alo))).2 in
  let best := extend_left best.1.1 alo blo best in
  extend_right (ahi - (best.1.1 + size best)) ahi bhi best.

(** The work list of [get_matching_blocks]; its head is the end of
    the Python list, where [pop] and [append] act. *)
Fixpoint blocks_loop (fuel : nat) (queue : list (nat * nat * nat * nat))
    (matching_blocks : list block) : option (list block) :=
  match queue with
  | [] => Some matching_blocks
  | (alo, ahi, blo, bhi) :: queue' =>
    match fuel with
    | O => None
    | S fuel' =>
      let '(i, j, k) := find_longest_match alo ahi blo bhi in
      if decide (k = O) then blocks_loop fuel' queue' matching_blocks
      else
        let left := if decide (alo < i ∧ blo < j)%nat
                    then [(alo, i, blo, j)] else [] in
        let right := if decide (i + k < ahi ∧ j + k < bhi)%nat
                     then [((i + k)%nat, ahi, (j + k)%nat, bhi)] else [] in
        blocks_loop fuel' (right ++ left ++ queue') (matching_blocks ++ [(i, j, k)])
    end
  end.

(** Tuple order of [matching_blocks.sort()]. *)
Definition block_le (x y : block) : Prop :=
  (x.1.1 < y.1.1 ∨ (x.1.1 = y.1.1 ∧
    (x.1.2 < y.1.2 ∨ (x.1.2 = y.1.2 ∧ x.2 ≤ y.2))))%nat.

Global Instance block_le_dec : RelDecision block_le.
Proof. intros x y. unfold block_le. apply _. Defined.

(** The loop that merges adjacent blocks; [cur] is [(i1, j1, k1)]. *)
Fixpoint collapse (cur : block) (blocks : list block) : list block :=
  match blocks with
  | [] => if decide (size cur = O) then [] else [cur]
  | (i2, j2, k2) :: blocks' =>
    let '(i1, j1, k1) := cur in
    if decide (i1 + k1 = i2 ∧ j1 + k1 = j2)%nat
    then collapse (i1, j1, (k1 + k2)%nat) blocks'
    else (if decide (k1 = O) then [] else [cur]) ++ collapse (i2, j2, k2) blocks'
  end.

Definition get_matching_blocks : list block :=
  let la := length a in
  let lb := length b in
  let found := default [] (blocks_loop (2 * la + 1) [(O, la, O, lb)] []) in
  collapse (O, O, O) (merge_sort block_le found) ++ [(la, lb, O)].

Definition matches : nat := sum_list (size <$> get_matching_blocks).

End matcher.

(** [_calculate_ratio]: [2.0 * matches / length], and 1.0 when both
    sequences are empty.  The quotient is kept exact; rounded to a
    double it compares with the double 0.6 in the same way as long as
    the two strings together are shorter than 10^15 characters. *)
Definition calculate_ratio (matches length : nat) : Q :=
  if decide (length = O) then 1%Q
  else (inject_Z (2 * Z.of_nat matches) / inject_Z (Z.of_nat length))%Q.

Definition ratio (a b : string) : Q :=
  let a := String.list_ascii_of_string a in
  let b := String.list_ascii_of_string b in
  calculate_ratio (matches a b) (length a + length b).

End SequenceMatcher.

(** ** search_animals *)

(** [not filtered] on a list. *)
Definition is_empty {A} (l : list A) : bool :=
  match l with [] => true | _ :: _ => false end.

(** [... .ratio() >= 0.6] *)
Definition similar (name_lower candidate : string) : Prop :=
  Qle_bool 0.6 (SequenceMatcher.ratio name_lower candidate).

Global Instance similar_dec x y : Decision (similar x y).
Proof. unfold similar. apply _. Defined.

(** The first query: rows whose folded name matches the LIKE pattern. *)
Definition like_stage (name_lower : string) (a : Animal.t) : Prop :=
  sql_like (sql_lower (Animal.name a)) (contains_pattern name_lower).

Global Instance like_stage_dec q a : Decision (like_stage q a).
Proof. unfold like_stage. apply _. Defined.

(** SQLite takes a LIKE pattern of at most 50000 bytes
    (SQLITE_MAX_LIKE_PATTERN_LENGTH), counted in the UTF-8 text it
    stores: one byte for a code point below U+0080, two for the others
    below U+0100. *)
Definition max_like_pattern_length : Z := 50000.

Definition utf8_size (c : ascii) : Z := if is_ascii c then 1 else 2.

Fixpoint utf8_length (s : string) : Z :=
  match s with
  | EmptyString => 0
  | String c s' => utf8_size c + utf8_length s'
  end.

Definition pattern_fits (name_lower : string) : Prop :=
  utf8_length (contains_pattern name_lower) ≤ max_like_pattern_length.

Global Instance pattern_fits_dec q : Decision (pattern_fits q).
Proof. unfold pattern_fits. apply _. Defined.

(** The first query, [... .filter(func.lower(Animal.name).like(...)).all()].
    SQLite checks the length of the pattern when it evaluates [LIKE] on
    a row: with a pattern that is too long the statement fails at the
    first row, with OperationalError, and on an empty table it returns
    no row. *)
Definition query_like (name_lower : string) : session table :=
  λ db,
    if decide (pattern_fits name_lower ∨ db = []) then query_all (like_stage name_lower) db
    else (Err OperationalError, db).

Definition search_animals (name : string) : session table :=
  let name_lower := py_lower name in
  filtered ← query_like name_lower;
  filtered ← (if is_empty filtered then
                all_animals ← query_all (λ _, True);
                mret (filter (λ a, similar name_lower (py_lower (Animal.name a)))
                             all_animals)
              else mret filtered);
  if is_empty filtered then raise SearchNotFound else mret filtered.

(** ** list_animals *)

(** The query object that the handler builds up before [.all()]. *)
Inductive criterion : Type :=
  | created_at_ge (d : datetime)
  | created_at_le (d : datetime).

Inductive ordering : Type :=
  | name_asc
  | name_desc.

Record query : Type := Query { criteria : list criterion; order_by : option ordering }.

Definition add_filter (c : criterion) (q : query) : query :=
  Query (criteria q ++ [c]) (order_by q).

Definition set_order (o : ordering) (q : query) : query :=
  Query (criteria q) (Some o).

Definition holds (a : Animal.t) (c : criterion) : Prop :=
  match c with
  | created_at_ge d => d ≤ Animal.created_at a
  | created_at_le d => Animal.created_at a ≤ d
  end.

Global Instance holds_dec a c : Decision (holds a c).
Proof. destruct c; simpl; apply _. Defined.

Definition name_le (x y : Animal.t) : Prop :=
  (Animal.name x ≤ Animal.name y)%string.

Global Instance name_le_dec : RelDecision name_le.
Proof. intros x y. unfold name_le. apply _. Defined.

(** ORDER BY name under the BINARY collation.  Rows with equal names
    have no prescribed order in SQL; the UNIQUE constraint leaves none. *)
Definition sort_rows (o : option ordering) (rows : table) : table :=
  match o with
  | None => rows
  | Some name_asc => merge_sort name_le rows
  | Some name_desc => merge_sort (flip name_le) rows
  end.

(** [query.all()]: WHERE every criterion, then ORDER BY. *)
Definition all (q : query) : session table :=
  λ db,
    let rows := filter (λ a, Forall (holds a) (criteria q)) db in
    (Ok (sort_rows (order_by q) rows), db).

(** Truth value of an [Optional[str]]: [None] and the empty string are
    false.  [given] keeps the string exactly when it is true. *)
Definition given (o : option string) : option string :=
  match o with
  | Some (String c s) => Some (String c s)
  | _ => None
  end.

Section list_animals.

(** [datetime.fromisoformat] of the Python library, [None] where it
    raises ValueError. *)
Variable fromisoformat : string → option datetime.

Definition parse_date (s : string) : session datetime :=
  match fromisoformat s with
  | Some d => mret d
  | None => raise ValueError
  end.

Definition list_animals (sort from_date to_date : option string) : session table :=
  let query := Query [] None in
  query ← match given from_date with
          | Some from_date =>
            d ← parse_date from_date; mret (add_filter (created_at_ge d) query)
          | None => mret query
          end;
  query ← match given to_date with
          | Some to_date =>
            d ← parse_date to_date; mret (add_filter (created_at_le d) query)
          | None => mret query
          end;
  query ← match given sort with
          | Some sort =>
            if bool_decide (sort = "name") then mret (set_order name_asc query)
            else if bool_decide (sort = "-name") then mret (set_order name_desc query)
            else raise InvalidSortParameter
          | None => mret query
          end;
  all query.

End list_animals.

(** ** Sequences of write requests *)

Inductive request : Type :=
  | Create (now : datetime) (draws : nat → Z) (name : string)
  | Update (id : Z) (name : string)
  | Delete (id : Z).

(** The table after one request, whether it succeeded or raised. *)
Definition serve (db : table) (r : request) : table :=
  match r with
  | Create now draws name => (add_animal now draws name db).2
  | Update id name => (update_animal id name db).2
  | Delete id => (delete_animal id db).2
  end.

Definition serve_all (rs : list request) (db : table) : table := foldl serve db rs.

(** A small table and a run of requests, used as a running example. *)
Definition zoo : table :=
  [Animal.mk 1 "Lion" 10; Animal.mk 2 "zebra" 20; Animal.mk 3 "Ant" 30].

(** Random bits for the running example; they are not consumed as long
    as the largest id is below 2^63-1. *)
Definition no_draws : nat → Z := λ _, 0.

Definition zoo_requests : list request :=
  [Create 40 no_draws "Okapi"; Create 41 no_draws "OKAPI"; Update 2 "lion";
   Update 2 "Zebra"; Delete 1; Create 42 no_draws "lion"].

(** A table whose largest id is the last rowid, and random bits that
    lead SQLite to the candidates 1, 2, 3, ... *)
Definition full_zoo : table :=
  [Animal.mk 1 "Lion" 10; Animal.mk max_rowid "Ant" 30].

Definition count_draws : nat → Z := Z.of_nat.

(** ** Properties named by the specification *)

(** Case-insensitive equality of two names. *)
Definition same_name_ci (x y : string) : Prop := py_lower x = py_lower y.

Global Instance same_name_ci_dec : RelDecision same_name_ci.
Proof. intros x y. unfold same_name_ci. apply _. Defined.

(** No two rows share a name up to case. *)
Definition unique_names_ci (db : table) : Prop :=
  NoDup (py_lower ∘ Animal.name <$> db).

(** The primary key: no two rows share an id. *)
Definition unique_ids (db : table) : Prop := NoDup (Animal.id <$> db).

(** A date parameter as the specification reads it: absent ([Some
    None]), or an ISO-8601 string with the timestamp it denotes; [None]
    for a string that is not ISO-8601. *)
Definition date_bound (fromisoformat : string → option datetime)
    (o : option string) : option (option datetime) :=
  match o with
  | None => Some None
  | Some s => Some <$> fromisoformat s
  end.

(** [created_at] lies within the bounds that are given, ends included. *)
Definition within (lo hi : option datetime) (a : Animal.t) : Prop :=
  from_option (λ d, d ≤ Animal.created_at a) True lo
  ∧ from_option (λ d, Animal.created_at a ≤ d) True hi.

Global Instance within_dec lo hi a : Decision (within lo hi a).
Proof. unfold within. destruct lo, hi; simpl; apply _. Defined.

(** A stand-in for [datetime.fromisoformat] that knows two instants,
    for the running example. *)
Definition zoo_dates (s : string) : option datetime :=
  if bool_decide (s = "1970-01-01T00:00:00.000015") then Some 15
  else if bool_decide (s = "1970-01-01T00:00:00.000020") then Some 20
  else None.

(** A query without the two LIKE wildcards and without U+0000. *)
Definition wildcard (c : ascii) : bool :=
  bool_decide (c = percent) || bool_decide (c = underscore).

Definition plain (q : string) : bool :=
  all_chars (λ c, negb (wildcard c) && negb (bool_decide (c = nul))) q.

Definition no_nul (s : string) : bool :=
  all_chars (λ c, negb (bool_decide (c = nul))) s.

(** A name in ASCII without U+0000. *)
Definition ascii_text (s : string) : bool :=
  all_chars (λ c, is_ascii c && negb (bool_decide (c = nul))) s.

(** Text that SQLite's folding leaves as it is. *)
Definition folded (s : string) : bool :=
  all_chars (λ c, bool_decide (sql_lower_char c = c)) s.

(** The query occurs in the name, case ignored on both sides. *)
Definition contains_ci (q name : string) : Prop :=
  is_substring (py_lower q) (py_lower name).

Global Instance contains_ci_dec : RelDecision contains_ci.
Proof. intros x y. unfold contains_ci. apply _. Defined.

(** ** Exception handlers *)

(** The five [@app.exception_handler] functions: the status code and the
    ["error"] entry of the JSON body (its ["message"] entry is the text
    the exception was raised with, which [exn] does not carry).  No
    handler is registered for the library exceptions. *)
Definition exception_handler (e : exn) : option (nat * string) :=
  match e with
  | AnimalNotFound => Some (404%nat, "Nie znalezione zwierze!")
  | InvalidNameFormat => Some (400%nat, "Niepoprawny format nazwy!")
  | DuplicateName => Some (400%nat, "Powtórka imienia!")
  | InvalidSortParameter => Some (400%nat, "Niepoprawny parametr sortowania")
  | SearchNotFound => Some (404%nat, "Nie znaleziono takiego wyszukiwania")
  | ValueError | IntegrityError | OverflowError | OperationalError => None
  end.

(** The status line of the response: 200 for a returned value (no route
    sets another code), the handler's code for a handled exception, and
    the framework's 500 for an exception without handler. *)
Definition status_code {A} (r : result A) : nat :=
  match r with
  | Ok _ => 200%nat
  | Err e => from_option fst 500%nat (exception_handler e)
  end.

(** ** Further properties of tables and parameters *)

Global Instance result_eq_dec {A} `{EqDecision A} : EqDecision (result A).
Proof. solve_decision. Defined.


(** The largest id has not reached 2^63-1, so the next rowid is the
    next number. *)
Definition rowids_left (db : table) : Prop :=
  Forall (λ a, Animal.id a < max_rowid) db.

(** Every stored name is one that [validate_name] returns. *)
Definition names_valid (db : table) : Prop :=
  Forall (λ a, validate_name (Animal.name a) = Ok (Animal.name a)) db.


(** A date parameter that is given and that [fromisoformat] refuses. *)
Definition malformed (fromisoformat : string → option datetime)
    (o : option string) : Prop :=
  match given o with
  | Some s => fromisoformat s = None
  | None => False
  end.

Global Instance malformed_dec f o : Decision (malformed f o).
Proof. unfold malformed. destruct (given o); apply _. Defined.

(** A [sort] parameter that is given and is neither of the two keys. *)
Definition unknown_sort (o : option string) : Prop :=
  match given o with
  | Some s => s ≠ "name" ∧ s ≠ "-name"
  | None => False
  end.

Global Instance unknown_sort_dec o : Decision (unknown_sort o).
Proof. unfold unknown_sort. destruct (given o); apply _. Defined.

(** Bookkeeping on the side of [b], as [inside] and [short] are on the
    side of [a]: a block lies within [b[blo:bhi]]; the run lengths of a
    row belong to positions in [b[blo:bhi]] and do not reach back
    before [blo]; a work item is [ordered_b] when [blo <= bhi]. *)
Definition inside_b (blo bhi : nat) (m : nat * nat * nat) : Prop :=
  (blo ≤ m.1.2 ∧ m.1.2 + m.2 ≤ bhi)%nat.

Definition short_b (blo bhi : nat) (j2len : gmap nat nat) : Prop :=
  ∀ j k, j2len !! j = Some k → (blo + k ≤ j + 1 ∧ j < bhi)%nat.

Definition ordered_b (item : nat * nat * nat * nat) : Prop :=
  (item.1.2 ≤ item.2)%nat.

(** The room a work item leaves for blocks, in [a] and in [b]. *)
Definition room_a (item : nat * nat * nat * nat) : nat := item.1.1.2 - item.1.1.1.
Definition room_b (item : nat * nat * nat * nat) : nat := item.2 - item.1.2.

(** * Verification *)

(** ** Case folding on plain ASCII text *)

Ltac by_cases_on_char c :=
  destruct c as [[] [] [] [] [] [] [] []]; vm_compute; try done; intuition done.

Lemma py_lower_char_ascii c :
  is_ascii c = true →
  py_lower_char c = sql_lower_char c ∧ is_ascii (py_lower_char c) = true.
Proof. by_cases_on_char c. Qed.

Lemma lower_char_not_ascii c :
  is_ascii c = false → is_ascii (py_lower_char c) = false ∧ sql_lower_char c = c.
Proof. by_cases_on_char c. Qed.

Lemma name_char_ascii c : name_char c = true → is_ascii c = true.
Proof. by_cases_on_char c. Qed.

Lemma py_sql_lower_ascii s :
  all_chars is_ascii s = true → py_lower s = sql_lower s.
Proof.
  induction s as [|c s IH]; simpl; [done|].
  intros [Hc Hs]%andb_prop. unfold py_lower, sql_lower in *; simpl.
  f_equal; [by apply py_lower_char_ascii | auto].
Qed.

(** Against an ASCII candidate, SQLite's folding of the stored name and
    Python's agree on whether the two names are equal up to case. *)
Lemma sql_lower_eq_py_lower stored name :
  all_chars is_ascii name = true →
  sql_lower stored = py_lower name ↔ same_name_ci stored name.
Proof.
  unfold same_name_ci, sql_lower, py_lower.
  revert name. induction stored as [|c s IH]; intros [|d n]; simpl; try done.
  intros [Hd Hn]%andb_prop. specialize (IH n Hn).
  destruct (py_lower_char_ascii d Hd) as [_ Hld].
  destruct (is_ascii c) eqn:Hc.
  - destruct (py_lower_char_ascii c Hc) as [-> _].
    split; intros [= ? ?]; f_equal; tauto.
  - destruct (lower_char_not_ascii c Hc) as [Hpc ->].
    split; intros [= Hcd ?]; exfalso; rewrite Hcd in *; congruence.
Qed.

(** ** validate_name *)

Lemma skip_name_chars_ascii s :
  at_dollar (skip_name_chars s) = true → all_chars is_ascii s = true.
Proof.
  induction s as [|c s IH]; simpl; [done|].
  destruct (name_char c) eqn:Hc.
  - intros ?. rewrite (name_char_ascii c Hc). simpl. auto.
  - unfold at_dollar. intros [H|H]%orb_prop; apply bool_decide_eq_true in H; [done|].
    by injection H as -> ->.
Qed.

Lemma validate_name_Ok name r : validate_name name = Ok r → r = name.
Proof. unfold validate_name. repeat case_match; congruence. Qed.


Lemma validate_name_ascii name r :
  validate_name name = Ok r → all_chars is_ascii name = true.
Proof.
  unfold validate_name. repeat case_match; try done. intros _.
  destruct name as [|c s]; [done|]. simpl in *.
  match goal with H : negb _ = false |- _ => apply negb_false_iff, andb_prop in H as [Hc Hs] end.
  rewrite (name_char_ascii c Hc). by apply skip_name_chars_ascii.
Qed.

(** A name made of letters and hyphens only is matched by the pattern. *)
Lemma all_name_chars_skip s :
  all_chars name_char s = true → skip_name_chars s = EmptyString.
Proof.
  induction s as [|c s IH]; simpl; [done|]. intros [-> ?]%andb_prop. auto.
Qed.

(** The validator accepts every name the contract accepts. *)
Lemma validate_name_complete name :
  spec_name_rejected name = false → validate_name name = Ok name.
Proof.
  unfold spec_name_rejected, validate_name.
  intros H. repeat (apply orb_false_elim in H as [H ?]).
  rewrite H. repeat match goal with H : _ = false |- _ => rewrite H end.
  destruct name as [|c s]; [done|]. simpl in *.
  match goal with H : negb _ = false |- _ => apply negb_false_iff, andb_prop in H as [-> Hs] end.
  by rewrite (all_name_chars_skip s Hs).
Qed.

(** What it accepts beyond the contract ends in a newline. *)
Lemma validate_name_sound name :
  validate_name name = Ok name →
  spec_name_rejected name = false ∨ last_char name = Some newline.
Proof.
  unfold validate_name, spec_name_rejected.
  repeat case_match; try done. intros _. simpl.
  match goal with H : negb _ = false |- _ => apply negb_false_iff in H; rename H into Hm end.
  destruct name as [|c s]; [done|]. simpl in Hm. apply andb_prop in Hm as [Hc Hs].
  assert (all_chars name_char s = true ∨ last_char (String c s) = Some newline) as [Ha|Hl];
    [|left; simpl; by rewrite Hc, Ha|by right].
  clear -Hs. revert c. induction s as [|d s IH]; intros c; [by left|].
  simpl in Hs. destruct (name_char d) eqn:Hd.
  - destruct (IH Hs d) as [Ha|Hl]; [left; simpl; by rewrite Hd, Ha|by right].
  - right. unfold at_dollar in Hs. apply orb_prop in Hs as [H|H];
      apply bool_decide_eq_true in H; [done|]. by injection H as -> ->.
Qed.

(** C4. The contract rejects the three-character name "ab" + newline
    (the newline is neither a letter nor a hyphen); [validate_name]
    returns it. *)
Theorem validate_name_trailing_newline :
  let name := String "a" (String "b" (String newline EmptyString)) in
  spec_name_rejected name = true ∧ validate_name name = Ok name.
Proof. split; reflexivity. Qed.

(** ** Queries *)

Section queries.
Context (P : Animal.t → Prop) `{!∀ a, Decision (P a)}.

Lemma first_None (db : list Animal.t) :
  head (filter P db) = None ↔ ∀ a, a ∈ db → ¬ P a.
Proof.
  rewrite head_None. split.
  - intros Hnil a Ha HP.
    assert (a ∈ filter P db) as Hin by (apply list_elem_of_filter; done).
    rewrite Hnil in Hin. by apply elem_of_nil in Hin.
  - intros Hno. destruct (filter P db) as [|a l] eqn:Hf; [done|].
    assert (a ∈ filter P db) as [HP Ha]%list_elem_of_filter by (rewrite Hf; left).
    by destruct (Hno a Ha).
Qed.

Lemma first_Some (db : list Animal.t) a :
  head (filter P db) = Some a → a ∈ db ∧ P a.
Proof.
  destruct (filter P db) as [|a' l] eqn:Hf; [done|]. intros [= ->].
  assert (a ∈ filter P db) as [HP Ha]%list_elem_of_filter by (rewrite Hf; left).
  done.
Qed.

Lemma filter_all (db : list Animal.t) : (∀ a, a ∈ db → P a) → filter P db = db.
Proof.
  induction db as [|a db IH]; intros Hall; [done|].
  rewrite filter_cons_True by (apply Hall; left).
  f_equal. apply IH. intros b Hb. apply Hall. by right.
Qed.
End queries.

Lemma id_absent id (db : list Animal.t) :
  (∀ a, a ∈ db → ¬ Animal.id a = id) ↔ id ∉ Animal.id <$> db.
Proof.
  rewrite list_elem_of_fmap. split.
  - intros H (a & -> & Ha). by apply (H a).
  - intros H a Ha Heq. apply H. by exists a.
Qed.

(** ** The handlers as case distinctions *)

Lemma get_animal_eq id db :
  get_animal id db =
  if decide (in_int64 id) then
    match head (filter (λ a, Animal.id a = id) db) with
    | Some a => (Ok a, db)
    | None => (Err AnimalNotFound, db)
    end
  else (Err OverflowError, db).
Proof.
  unfold get_animal, bind_int, mbind, session_bind, query_first.
  destruct (decide (in_int64 id)); simpl; [|done]. by case_match.
Qed.

Lemma delete_animal_eq id db :
  delete_animal id db =
  if decide (in_int64 id) then
    match head (filter (λ a, Animal.id a = id) db) with
    | Some _ => (Ok deleted, filter (λ a, Animal.id a ≠ id) db)
    | None => (Err AnimalNotFound, db)
    end
  else (Err OverflowError, db).
Proof.
  unfold delete_animal, bind_int, mbind, session_bind, query_first.
  destruct (decide (in_int64 id)); simpl; [|done]. by case_match.
Qed.

Lemma add_animal_eq now draws name db :
  add_animal now draws name db =
  match validate_name name with
  | Err e => (Err e, db)
  | Ok name =>
    match head (filter (λ a, sql_lower (Animal.name a) = py_lower name) db) with
    | Some _ => (Err DuplicateName, db)
    | None => insert_row now draws name db
    end
  end.
Proof.
  unfold add_animal, mbind, session_bind, query_first, lift.
  destruct (validate_name name); simpl; [|done]. by case_match.
Qed.

Lemma update_animal_eq id name db :
  update_animal id name db =
  match validate_name name with
  | Err e => (Err e, db)
  | Ok _ =>
    if decide (in_int64 id) then
      match head (filter (λ a, Animal.id a = id) db) with
      | None => (Err AnimalNotFound, db)
      | Some animal =>
        match head (filter (λ a, sql_lower (Animal.name a) = py_lower name
                                 ∧ Animal.id a ≠ id) db) with
        | Some _ => (Err DuplicateName, db)
        | None =>
          match update_row id name db with
          | (Ok _, db') => (Ok (set_name name animal), db')
          | (Err e, db') => (Err e, db')
          end
        end
      end
    else (Err OverflowError, db)
  end.
Proof.
  unfold update_animal, bind_int, mbind, session_bind, query_first, lift.
  destruct (validate_name name); simpl; [|done].
  destruct (decide (in_int64 id)); simpl; [|done].
  repeat case_match; simplify_eq; done.
Qed.

(** ** AnimalNotFound *)




(** ** Writes with a validated name *)

(** The duplicate check of [add_animal], read at the level of names. *)
Lemma no_duplicate_iff name (db : list Animal.t) :
  all_chars is_ascii name = true →
  head (filter (λ a, sql_lower (Animal.name a) = py_lower name) db) = None
  ↔ ¬ Exists (λ a, same_name_ci (Animal.name a) name) db.
Proof.
  intros Hname. rewrite first_None, Exists_exists. split.
  - intros H (a & Ha & Hci). apply (H a Ha). by apply sql_lower_eq_py_lower.
  - intros H a Ha Heq. apply H. exists a. split; [done|].
    by apply sql_lower_eq_py_lower.
Qed.

(** The duplicate check of [update_animal]. *)
Lemma no_other_duplicate_iff id name (db : list Animal.t) :
  all_chars is_ascii name = true →
  head (filter (λ a, sql_lower (Animal.name a) = py_lower name ∧ Animal.id a ≠ id) db)
    = None
  ↔ ¬ Exists (λ a, same_name_ci (Animal.name a) name ∧ Animal.id a ≠ id) db.
Proof.
  intros Hname. rewrite first_None, Exists_exists. split.
  - intros H (a & Ha & Hci & Hid). apply (H a Ha). split; [|done].
    by apply sql_lower_eq_py_lower.
  - intros H a Ha [Heq Hid]. apply H. exists a. split_and!; [done| |done].
    by apply sql_lower_eq_py_lower.
Qed.

Lemma same_name_ci_refl name : same_name_ci name name.
Proof. done. Qed.

(** With a validated name the handlers never reach the UNIQUE
    constraint: the duplicate check has caught the name before. *)
Lemma add_animal_valid now draws name db :
  validate_name name = Ok name →
  add_animal now draws name db =
  if decide (Exists (λ a, same_name_ci (Animal.name a) name) db)
  then (Err DuplicateName, db)
  else match new_rowid draws db with
       | None => (Err OperationalError, db)
       | Some rowid =>
         let animal := Animal.mk rowid name now in (Ok animal, place_row animal db)
       end.
Proof.
  intros Hv. pose proof (validate_name_ascii _ _ Hv) as Hascii.
  rewrite add_animal_eq, Hv.
  destruct (head (filter _ db)) eqn:Hh.
  - rewrite decide_True; [done|].
    destruct (decide (Exists (λ a, same_name_ci (Animal.name a) name) db)); [done|].
    apply no_duplicate_iff in n; [congruence|done].
  - apply no_duplicate_iff in Hh; [|done]. rewrite decide_False by done.
    unfold insert_row. destruct (new_rowid draws db); [|done].
    rewrite bool_decide_eq_false_2; [done|].
    intros (a & -> & Ha)%list_elem_of_fmap. apply Hh, Exists_exists.
    exists a. split; [done|]. apply same_name_ci_refl.
Qed.

Lemma update_animal_valid id name db :
  validate_name name = Ok name →
  update_animal id name db =
  if decide (in_int64 id) then
    match head (filter (λ a, Animal.id a = id) db) with
    | None => (Err AnimalNotFound, db)
    | Some animal =>
      if decide (Exists (λ a, same_name_ci (Animal.name a) name ∧ Animal.id a ≠ id) db)
      then (Err DuplicateName, db)
      else (Ok (set_name name animal), rename id name <$> db)
    end
  else (Err OverflowError, db).
Proof.
  intros Hv. pose proof (validate_name_ascii _ _ Hv) as Hascii.
  rewrite update_animal_eq, Hv.
  destruct (decide (in_int64 id)); [|done].
  destruct (head (filter (λ a, Animal.id a = id) db)) as [animal|]; [|done].
  destruct (head (filter (λ a, _ ∧ _) db)) eqn:Hh.
  - rewrite decide_True; [done|].
    destruct (decide (Exists (λ a, same_name_ci (Animal.name a) name ∧ Animal.id a ≠ id) db));
      [done|].
    apply no_other_duplicate_iff in n; [congruence|done].
  - apply no_other_duplicate_iff in Hh; [|done]. rewrite decide_False by done.
    unfold update_row. rewrite bool_decide_eq_false_2; [done|].
    intros (a & Ha & <- & Hid)%Exists_exists. apply Hh, Exists_exists.
    exists a. split_and!; [done| |done]. apply same_name_ci_refl.
Qed.


(** ** Update as a frame *)

(** C9. A successful update leaves every row's id and creation time as
    they were, leaves every row with another id untouched, and gives
    the row with the given id the new name; the row it returns is that
    row. *)
Theorem update_animal_frame id name db r db'
    (Hok : update_animal id name db = (Ok r, db')) :
  Forall2 (λ a a', Animal.id a' = Animal.id a
                   ∧ Animal.created_at a' = Animal.created_at a
                   ∧ (Animal.id a ≠ id → a' = a)
                   ∧ (Animal.id a = id → Animal.name a' = name)) db db'
  ∧ r ∈ db' ∧ Animal.id r = id ∧ Animal.name r = name.
Proof.
  rewrite update_animal_eq in Hok.
  destruct (validate_name name); [|done].
  destruct (decide (in_int64 id)); [|done].
  destruct (head (filter (λ a, Animal.id a = id) db)) as [animal|] eqn:Hfirst; [|done].
  destruct (head (filter (λ a, _ ∧ _) db)); [done|].
  unfold update_row in Hok. destruct (bool_decide (Exists _ db)); [done|].
  injection Hok as <- <-.
  apply first_Some in Hfirst as [Hin Hid].
  split_and!.
  - apply Forall2_fmap_r, Forall_Forall2_diag, Forall_forall. intros x _.
    unfold rename, set_name; simpl. case_bool_decide; simpl; done.
  - apply list_elem_of_fmap. exists animal. split; [|done].
    unfold rename. by rewrite bool_decide_eq_true_2.
  - done.
  - done.
Qed.

Lemma update_animal_frame_witness :
  let db' := [Animal.mk 1 "Lion" 10; Animal.mk 2 "Okapi" 20; Animal.mk 3 "Ant" 30] in
  update_animal 2 "Okapi" zoo = (Ok (Animal.mk 2 "Okapi" 20), db')
  ∧ Forall2 (λ a a', Animal.id a' = Animal.id a
                     ∧ Animal.created_at a' = Animal.created_at a
                     ∧ (Animal.id a ≠ 2 → a' = a)
                     ∧ (Animal.id a = 2 → Animal.name a' = "Okapi")) zoo db'
  ∧ Animal.mk 2 "Okapi" 20 ∈ db' ∧ 2 = 2 ∧ "Okapi" = "Okapi".
Proof.
  split; [reflexivity|].
  exact (update_animal_frame 2 "Okapi" zoo (Animal.mk 2 "Okapi" 20) _ eq_refl).
Defined.

(** ** Uniqueness of names *)

Lemma NoDup_fmap_eq {A B} (f : A → B) (l : list A) x y :
  NoDup (f <$> l) → x ∈ l → y ∈ l → f x = f y → x = y.
Proof.
  intros Hnd [i Hi]%list_elem_of_lookup [j Hj]%list_elem_of_lookup Hf.
  assert (i = j) as ->; [|congruence].
  apply (proj1 (NoDup_alt _) Hnd i j (f x)); rewrite list_lookup_fmap.
  - by rewrite Hi.
  - by rewrite Hj, Hf.
Qed.

(** The largest rowid is one of the ids and none is larger. *)
Lemma largest_rowid_None (db : list Animal.t) : largest_rowid db = None ↔ db = [].
Proof. unfold largest_rowid. by destruct db. Qed.

Lemma largest_rowid_Some (db : list Animal.t) largest :
  largest_rowid db = Some largest →
  largest ∈ Animal.id <$> db ∧ Forall (λ a, Animal.id a ≤ largest) db.
Proof.
  unfold largest_rowid. rewrite <- (Forall_fmap Animal.id (λ i, i ≤ largest)).
  destruct (Animal.id <$> db) as [|i ids]; [done|]. intros [= <-]. clear db.
  induction ids as [|y ids [IHin IHle]]; cbn [foldr].
  - split; [left|]. constructor; [lia|constructor].
  - apply Forall_cons in IHle as [Hi Hids]. split.
    + destruct (Z.max_spec y (foldr Z.max i ids)) as [[_ ->]|[_ ->]].
      * apply elem_of_cons in IHin as [->|?]; [left|right; by right].
      * right; left.
    + repeat constructor; [lia..|].
      eapply Forall_impl; [exact Hids|]. simpl. lia.
Qed.


Lemma new_rowid_fresh draws (db : list Animal.t) rowid :
  new_rowid draws db = Some rowid → rowid ∉ Animal.id <$> db.
Proof.
  unfold new_rowid. destruct (largest_rowid db) as [largest|] eqn:Hl.
  - apply largest_rowid_Some in Hl as [_ Hle]. case_decide.
    + intros [= <-] (a & Ha & Hin)%list_elem_of_fmap.
      rewrite Forall_forall in Hle. specialize (Hle a Hin). lia.
    + intros Hh. destruct (filter _ _) as [|v l] eqn:Hf; [done|].
      injection Hh as ->.
      assert (rowid ∈ rowid :: l) as Hin by left.
      rewrite <- Hf in Hin. by apply list_elem_of_filter in Hin as [? _].
  - apply largest_rowid_None in Hl as ->. intros _. apply not_elem_of_nil.
Qed.


(** As long as the largest id is below 2^63-1 the new rowid is above
    every id in the table, whatever the random bits, and the row goes
    to the end. *)
Lemma new_rowid_below draws (db : list Animal.t) :
  Forall (λ a, Animal.id a < max_rowid) db →
  ∃ rowid, new_rowid draws db = Some rowid
           ∧ Forall (λ a, Animal.id a < rowid) db
           ∧ (∀ draws', new_rowid draws' db = Some rowid).
Proof.
  intros Hdb. unfold new_rowid. destruct (largest_rowid db) as [largest|] eqn:Hl.
  - apply largest_rowid_Some in Hl as [(a & -> & Ha)%list_elem_of_fmap Hle].
    rewrite Forall_forall in Hdb. rewrite decide_True by auto.
    eexists. split_and!; [done| |intros draws'; by rewrite decide_True by auto].
    eapply Forall_impl; [exact Hle|]. simpl. lia.
  - apply largest_rowid_None in Hl as ->. eexists. by split_and!.
Qed.

Lemma place_row_last animal (db : list Animal.t) :
  Forall (λ a, Animal.id a < Animal.id animal) db → place_row animal db = db ++ [animal].
Proof.
  induction 1 as [|a db Ha Hdb IH]; [done|]. simpl.
  rewrite decide_False by lia. by rewrite IH.
Qed.

Lemma place_row_perm animal (db : list Animal.t) : place_row animal db ≡ₚ animal :: db.
Proof.
  induction db as [|a db IH]; [done|]. simpl. case_decide; [done|].
  rewrite IH. apply Permutation_swap.
Qed.

Lemma rename_id id name a : Animal.id (rename id name a) = Animal.id a.
Proof. unfold rename. by case_bool_decide. Qed.

Lemma rename_ids id name (db : list Animal.t) :
  Animal.id <$> (rename id name <$> db) = Animal.id <$> db.
Proof.
  rewrite <- list_fmap_compose. apply list_fmap_ext. intros _ a _. apply rename_id.
Qed.

Lemma unique_names_insert (db : list Animal.t) a :
  unique_names_ci db →
  ¬ Exists (λ b, same_name_ci (Animal.name b) (Animal.name a)) db →
  unique_names_ci (place_row a db).
Proof.
  unfold unique_names_ci. intros Hnd Hno.
  rewrite (fmap_Permutation _ _ _ (place_row_perm a db)), fmap_cons.
  apply NoDup_cons. split; [|done].
  intros (b & Hx & Hb)%list_elem_of_fmap.
  apply Hno, Exists_exists. exists b. split; [done|].
  unfold same_name_ci. simpl in Hx. by rewrite Hx.
Qed.

Lemma unique_ids_insert (db : list Animal.t) a :
  unique_ids db → Animal.id a ∉ Animal.id <$> db → unique_ids (place_row a db).
Proof.
  unfold unique_ids. intros Hnd Hno.
  rewrite (fmap_Permutation _ _ _ (place_row_perm a db)), fmap_cons.
  by apply NoDup_cons.
Qed.

Lemma unique_names_rename id name (db : list Animal.t) :
  unique_ids db → unique_names_ci db →
  ¬ Exists (λ a, same_name_ci (Animal.name a) name ∧ Animal.id a ≠ id) db →
  unique_names_ci (rename id name <$> db).
Proof.
  unfold unique_ids, unique_names_ci. intros Hids Hnames Hno.
  apply NoDup_alt. intros i j x.
  rewrite !list_lookup_fmap.
  destruct (db !! i) as [a|] eqn:Hi; [|done].
  destruct (db !! j) as [b|] eqn:Hj; [|done]. simpl. intros [= <-] [= Hab].
  assert (a ∈ db) as Ha by (by eapply list_elem_of_lookup_2).
  assert (b ∈ db) as Hb by (by eapply list_elem_of_lookup_2).
  assert (∀ c, c ∈ db → Animal.id c ≠ id → py_lower (Animal.name c) ≠ py_lower name)
    as Hother.
  { intros c Hc Hid Heq. apply Hno, Exists_exists. by exists c. }
  unfold rename in Hab.
  destruct (decide (Animal.id a = id)) as [Hida|Hida],
           (decide (Animal.id b = id)) as [Hidb|Hidb].
  - apply (proj1 (NoDup_alt _) Hids i j id); rewrite list_lookup_fmap.
    + by rewrite Hi; simpl; f_equal.
    + by rewrite Hj; simpl; f_equal.
  - rewrite (bool_decide_eq_true_2 (Animal.id a = id)),
      (bool_decide_eq_false_2 (Animal.id b = id)) in Hab by done.
    exfalso. apply (Hother b Hb Hidb). exact Hab.
  - rewrite (bool_decide_eq_false_2 (Animal.id a = id)),
      (bool_decide_eq_true_2 (Animal.id b = id)) in Hab by done.
    exfalso. apply (Hother a Ha Hida). symmetry. exact Hab.
  - rewrite !bool_decide_eq_false_2 in Hab by done.
    apply (proj1 (NoDup_alt _) Hnames i j (py_lower (Animal.name a)));
      rewrite list_lookup_fmap.
    + by rewrite Hi.
    + rewrite Hj. simpl. by f_equal.
Qed.

Lemma unique_filter {B} (f : Animal.t → B) (P : Animal.t → Prop)
    `{!∀ a, Decision (P a)} (db : list Animal.t) :
  NoDup (f <$> db) → NoDup (f <$> filter P db).
Proof.
  intros Hnd. eapply sublist_NoDup; [exact Hnd|].
  apply fmap_sublist, sublist_filter.
Qed.

(** One request keeps both keys: the primary key and the name up to
    case. *)
Lemma serve_unique db r :
  unique_ids db → unique_names_ci db →
  unique_ids (serve db r) ∧ unique_names_ci (serve db r).
Proof.
  intros Hids Hnames. destruct r as [now draws name|id name|id]; simpl.
  - destruct (validate_name name) as [n|e] eqn:Hv.
    + pose proof (validate_name_Ok _ _ Hv) as ->.
      rewrite add_animal_valid by done. case_decide; simpl; [done|].
      destruct (new_rowid draws db) as [rowid|] eqn:Hrowid; simpl; [|done]. split.
      * apply unique_ids_insert; [done|]. by apply (new_rowid_fresh draws).
      * by apply unique_names_insert.
    + by rewrite add_animal_eq, Hv.
  - destruct (validate_name name) as [n|e] eqn:Hv.
    + pose proof (validate_name_Ok _ _ Hv) as ->.
      rewrite update_animal_valid by done.
      destruct (decide (in_int64 id)); [|done].
      destruct (head (filter _ db)); [|done]. case_decide; simpl; [done|]. split.
      * unfold unique_ids. by rewrite rename_ids.
      * by apply unique_names_rename.
    + by rewrite update_animal_eq, Hv.
  - rewrite delete_animal_eq. destruct (decide (in_int64 id)); [|done].
    destruct (head (filter _ db)); simpl; [|done].
    split; by apply unique_filter.
Qed.

(** C1. From a table whose rows have distinct ids and names distinct up
    to case, every sequence of create, update and delete requests leads
    to such a table again; a create whose name some row bears up to
    case, and an update whose name some other row bears up to case, raise
    and leave the table as it was. *)
Theorem unique_names_invariant rs db
    (Hids : unique_ids db) (Hnames : unique_names_ci db) :
  unique_names_ci (serve_all rs db)
  ∧ unique_ids (serve_all rs db)
  ∧ (∀ now draws name, Exists (λ a, same_name_ci (Animal.name a) name) db →
       ∃ e, add_animal now draws name db = (Err e, db))
  ∧ (∀ id name,
       Exists (λ a, same_name_ci (Animal.name a) name ∧ Animal.id a ≠ id) db →
       ∃ e, update_animal id name db = (Err e, db)).
Proof.
  split_and!.
  - revert db Hids Hnames. induction rs as [|r rs IH]; intros db Hids Hnames; [done|].
    simpl. destruct (serve_unique db r Hids Hnames). by apply IH.
  - revert db Hids Hnames. induction rs as [|r rs IH]; intros db Hids Hnames; [done|].
    simpl. destruct (serve_unique db r Hids Hnames). by apply IH.
  - intros now draws name Hdup. destruct (validate_name name) as [n|e] eqn:Hv.
    + pose proof (validate_name_Ok _ _ Hv) as ->.
      rewrite add_animal_valid, decide_True by done. by eexists.
    + rewrite add_animal_eq, Hv. by eexists.
  - intros id name Hdup. destruct (validate_name name) as [n|e] eqn:Hv.
    + pose proof (validate_name_Ok _ _ Hv) as ->.
      rewrite update_animal_valid by done.
      destruct (decide (in_int64 id)); [|by eexists].
      destruct (head (filter _ db)); [|by eexists].
      rewrite decide_True by done. by eexists.
    + rewrite update_animal_eq, Hv. by eexists.
Qed.

Lemma unique_names_invariant_witness :
  (unique_ids zoo ∧ unique_names_ci zoo)
  ∧ unique_names_ci (serve_all zoo_requests zoo)
  ∧ unique_ids (serve_all zoo_requests zoo)
  ∧ (∀ now draws name, Exists (λ a, same_name_ci (Animal.name a) name) zoo →
       ∃ e, add_animal now draws name zoo = (Err e, zoo))
  ∧ (∀ id name,
       Exists (λ a, same_name_ci (Animal.name a) name ∧ Animal.id a ≠ id) zoo →
       ∃ e, update_animal id name zoo = (Err e, zoo)).
Proof.
  assert (unique_ids zoo) as Hids by (apply (bool_decide_unpack _); vm_compute; exact I).
  assert (unique_names_ci zoo) as Hnames
    by (apply (bool_decide_unpack _); vm_compute; exact I).
  split; [done|]. exact (unique_names_invariant zoo_requests zoo Hids Hnames).
Defined.

(** ** DuplicateName *)

Lemma first_by_id (db : list Animal.t) a :
  a ∈ db → ∃ b, head (filter (λ x, Animal.id x = Animal.id a) db) = Some b.
Proof.
  intros Ha. destruct (head (filter _ db)) as [b|] eqn:Hh; [by exists b|].
  rewrite first_None in Hh. by destruct (Hh a Ha).
Qed.

(** C5. For a name that validates: create raises DuplicateName exactly
    when some row bears the name up to case; update of a stored row
    (its id is one that SQLite can hold) raises DuplicateName exactly
    when some row with another id bears the name up to case.  When no
    row bears the name up to case, create succeeds and stores the name
    as given (in a table whose largest id is below 2^63-1 the row goes
    to the end).  After a successful create, a second create whose name
    differs only in case raises DuplicateName.  In a table with names
    distinct up to case, updating a row to the name it has succeeds and
    changes nothing. *)
Theorem duplicate_name_iff name db (Hvalid : validate_name name = Ok name) :
  (∀ now draws, (add_animal now draws name db).1 = Err DuplicateName
                ↔ Exists (λ a, same_name_ci (Animal.name a) name) db)
  ∧ (∀ id, id ∈ Animal.id <$> db → in_int64 id →
       (update_animal id name db).1 = Err DuplicateName
       ↔ Exists (λ a, same_name_ci (Animal.name a) name ∧ Animal.id a ≠ id) db)
  ∧ (∀ now draws,
       ¬ Exists (λ a, same_name_ci (Animal.name a) name) db → rowids_left db →
       ∃ r, add_animal now draws name db = (Ok r, db ++ [r])
            ∧ Animal.name r = name ∧ Animal.created_at r = now)
  ∧ (∀ now draws now' draws' name' r db',
       validate_name name' = Ok name' → same_name_ci name name' →
       add_animal now draws name db = (Ok r, db') →
       add_animal now' draws' name' db' = (Err DuplicateName, db'))
  ∧ (∀ a, a ∈ db → Animal.name a = name → in_int64 (Animal.id a) →
       unique_names_ci db →
       ∃ r db', update_animal (Animal.id a) name db = (Ok r, db')
                ∧ (unique_ids db → r = a ∧ db' = db)).
Proof.
  split_and!.
  - intros now draws. rewrite add_animal_valid by done. case_decide; [done|].
    by destruct (new_rowid draws db).
  - intros id [a [-> Ha]]%list_elem_of_fmap Hid.
    rewrite update_animal_valid, decide_True by done.
    destruct (first_by_id db a Ha) as [b ->]. by case_decide.
  - intros now draws Hno Hleft. rewrite add_animal_valid, decide_False by done.
    destruct (new_rowid_below draws db Hleft) as (rowid & -> & Habove & _).
    exists (Animal.mk rowid name now). split_and!; [|done..].
    simpl. f_equal. by apply place_row_last.
  - intros now draws now' draws' name' r db' Hvalid' Hci.
    rewrite add_animal_valid by done. case_decide; [done|].
    destruct (new_rowid draws db) as [rowid|]; [|done]. intros [= <- <-].
    rewrite add_animal_valid by done. rewrite decide_True; [done|].
    apply Exists_exists. eexists. split.
    + rewrite place_row_perm. left.
    + done.
  - intros a Ha Hname Hid Hnames. rewrite update_animal_valid, decide_True by done.
    destruct (first_by_id db a Ha) as [b Hb]. rewrite Hb.
    rewrite decide_False.
    + eexists _, _. split; [done|]. intros Hids.
      apply first_Some in Hb as [Hbin Hbid].
      assert (∀ c, c ∈ db → Animal.id c = Animal.id a → c = a) as Hsame.
      { intros c Hc Hidc. by apply (NoDup_fmap_eq Animal.id db). }
      rewrite (Hsame b Hbin Hbid). split.
      * destruct a. simpl in Hname. by subst.
      * rewrite <- (list_fmap_id db) at 2. apply list_fmap_ext.
        intros _ c Hc%list_elem_of_lookup_2.
        unfold rename. case_bool_decide as Hidc; [|done].
        rewrite (Hsame c Hc Hidc). destruct a. simpl in Hname. by subst.
    + intros (c & Hc & Hci & Hidc)%Exists_exists. apply Hidc. f_equal.
      apply (NoDup_fmap_eq (py_lower ∘ Animal.name) db); [done..|].
      simpl. by rewrite Hname.
Qed.

(** The statement at work in the example table: "lion" is refused by
    create and by the update of row 2, not by the update of row 1, which
    bears the name; "Okapi" is created and "OKAPI" refused after it;
    row 1 is updated to "Lion", the name it has, and nothing changes. *)
Lemma duplicate_name_iff_witness :
  (validate_name "lion" = Ok "lion"
   ∧ validate_name "Okapi" = Ok "Okapi"
   ∧ validate_name "Lion" = Ok "Lion")
  ∧ (add_animal 40 no_draws "lion" zoo).1 = Err DuplicateName
  ∧ (update_animal 2 "lion" zoo).1 = Err DuplicateName
  ∧ (update_animal 1 "lion" zoo).1 ≠ Err DuplicateName
  ∧ (∃ r, add_animal 40 no_draws "Okapi" zoo = (Ok r, zoo ++ [r])
          ∧ Animal.name r = "Okapi" ∧ Animal.created_at r = 40)
  ∧ add_animal 41 no_draws "OKAPI" (zoo ++ [Animal.mk 4 "Okapi" 40])
    = (Err DuplicateName, zoo ++ [Animal.mk 4 "Okapi" 40])
  ∧ (∃ r db', update_animal 1 "Lion" zoo = (Ok r, db')
              ∧ (unique_ids zoo → r = Animal.mk 1 "Lion" 10 ∧ db' = zoo)).
Proof.
  assert (∀ i, 1 ≤ i ≤ 3 → in_int64 i) as Hrange.
  { intros i Hi. unfold in_int64, min_int64, max_int64. lia. }
  assert (Exists (λ a, same_name_ci (Animal.name a) "lion") zoo) as Hlion
    by (by left).
  assert (Exists (λ a, same_name_ci (Animal.name a) "lion" ∧ Animal.id a ≠ 2) zoo)
    as Hother by (by left).
  assert (¬ Exists (λ a, same_name_ci (Animal.name a) "lion" ∧ Animal.id a ≠ 1) zoo)
    as Hnone.
  { intros H. repeat (apply Exists_cons in H as [[H1 H2]|H]; [done|]).
    by apply Exists_nil in H. }
  assert (¬ Exists (λ a, same_name_ci (Animal.name a) "Okapi") zoo) as Hnew.
  { intros H. repeat (apply Exists_cons in H as [H|H]; [done|]).
    by apply Exists_nil in H. }
  assert (rowids_left zoo) as Hleft by (by repeat constructor).
  assert (unique_names_ci zoo) as Hnames
    by (apply (bool_decide_unpack _); vm_compute; exact I).
  destruct (duplicate_name_iff "lion" zoo eq_refl) as (Hadd & Hupd & _).
  destruct (duplicate_name_iff "Okapi" zoo eq_refl) as (_ & _ & Hcreate & Hsecond & _).
  destruct (duplicate_name_iff "Lion" zoo eq_refl) as (_ & _ & _ & _ & Hsame).
  split; [by split_and!|]. split_and!.
  - by apply Hadd.
  - apply (Hupd 2); [right; left|by apply Hrange|done].
  - intros H. apply Hnone. apply (Hupd 1); [left|by apply Hrange|done].
  - by apply Hcreate.
  - by apply (Hsecond 40 no_draws 41 no_draws "OKAPI" (Animal.mk 4 "Okapi" 40)).
  - apply (Hsame (Animal.mk 1 "Lion" 10)); [left|done|by apply Hrange|done].
Defined.

(** Without the assumption that the row is stored: the duplicate check
    comes after the lookup, so an update raises DuplicateName only for
    a stored id. *)
Lemma update_duplicate_name_iff id name db :
  validate_name name = Ok name →
  (update_animal id name db).1 = Err DuplicateName
  ↔ in_int64 id
    ∧ id ∈ Animal.id <$> db
    ∧ Exists (λ a, same_name_ci (Animal.name a) name ∧ Animal.id a ≠ id) db.
Proof.
  intros Hvalid. rewrite update_animal_valid by done.
  destruct (decide (in_int64 id)) as [Hid|Hid]; [|simpl; split; [done|tauto]].
  destruct (head (filter (λ a, Animal.id a = id) db)) as [b|] eqn:Hb.
  - apply first_Some in Hb as [Hin <-].
    assert (Animal.id b ∈ Animal.id <$> db) by (apply list_elem_of_fmap; eauto).
    case_decide; simpl; split; try done; tauto.
  - rewrite first_None, id_absent in Hb. simpl. split; [done|tauto].
Qed.

(** ** Listing *)

Global Instance name_le_trans : Transitive name_le.
Proof. intros x y z. unfold name_le. apply transitivity. Qed.

Global Instance name_le_total : Total name_le.
Proof. intros x y. unfold name_le. apply total, _. Qed.

Global Instance name_ge_trans : Transitive (flip name_le).
Proof. intros x y z Hxy Hyz. exact (name_le_trans _ _ _ Hyz Hxy). Qed.

Global Instance name_ge_total : Total (flip name_le).
Proof. intros x y. destruct (name_le_total x y); [right|left]; done. Qed.

Section listing.
Variable fromisoformat : string → option datetime.
Hypothesis fromisoformat_empty : fromisoformat "" = None.

(** The three steps that build the query, and [all]. *)
Lemma list_animals_eq sort from_date to_date lo hi db :
  date_bound fromisoformat from_date = Some lo → date_bound fromisoformat to_date = Some hi →
  list_animals fromisoformat sort from_date to_date db =
  match given sort with
  | None => (Ok (filter (within lo hi) db), db)
  | Some sort =>
    if bool_decide (sort = "name")
    then (Ok (merge_sort name_le (filter (within lo hi) db)), db)
    else if bool_decide (sort = "-name")
    then (Ok (merge_sort (flip name_le) (filter (within lo hi) db)), db)
    else (Err InvalidSortParameter, db)
  end.
Proof.
  intros Hlo Hhi.
  assert (∀ o b, date_bound fromisoformat o = Some b →
            match given o with
            | Some s => fromisoformat s = b ∧ is_Some b
            | None => b = None
            end) as Hgiven.
  { intros [[|c s]|] b; simpl.
    - by rewrite fromisoformat_empty.
    - destruct (fromisoformat (String c s)); intros [= <-]; eauto.
    - by intros [= <-]. }
  apply Hgiven in Hlo, Hhi.
  unfold list_animals, parse_date, mbind, session_bind, mret, session_ret, all.
  destruct (given from_date) as [f|], (given to_date) as [t|];
    repeat match goal with
           | H : _ ∧ is_Some _ |- _ => destruct H as [-> [? ->]]
           | H : _ = None |- _ => rewrite H; clear H
           end;
    destruct (given sort) as [s|]; simpl; repeat case_bool_decide; simpl;
    try done; repeat f_equal;
    apply list_filter_iff; intros a; unfold within; simpl;
    rewrite ?Forall_cons, ?Forall_nil; tauto.
Qed.

(** C7, with the two exceptions the handler makes: an empty [sort] is
    no sort at all, and the dates are parsed before [sort] is looked
    at.  When the date parameters are absent or ISO-8601: [sort=name]
    returns the rows within the dates ordered by name, every row's
    name at most that of every later row; [sort=-name] the same rows
    in the opposite order; any other non-empty [sort] raises
    InvalidSortParameter; the empty [sort] returns the rows within the
    dates in table order, as no [sort] does.  Whatever the other
    parameters, the empty [sort] does what no [sort] does, and a date
    that is given and is not ISO-8601 raises ValueError, whatever
    [sort] is. *)
Theorem list_animals_sort db from_date to_date lo hi
    (Hfrom : date_bound fromisoformat from_date = Some lo)
    (Hto : date_bound fromisoformat to_date = Some hi) :
  (∃ rows, list_animals fromisoformat (Some "name") from_date to_date db = (Ok rows, db)
           ∧ rows ≡ₚ filter (within lo hi) db
           ∧ StronglySorted name_le rows)
  ∧ (∃ rows, list_animals fromisoformat (Some "-name") from_date to_date db = (Ok rows, db)
             ∧ rows ≡ₚ filter (within lo hi) db
             ∧ StronglySorted (flip name_le) rows)
  ∧ (∀ sort, sort ≠ "" → sort ≠ "name" → sort ≠ "-name" →
       list_animals fromisoformat (Some sort) from_date to_date db = (Err InvalidSortParameter, db))
  ∧ list_animals fromisoformat (Some "") from_date to_date db
    = (Ok (filter (within lo hi) db), db)
  ∧ (∀ from_date' to_date',
       list_animals fromisoformat (Some "") from_date' to_date' db
       = list_animals fromisoformat None from_date' to_date' db)
  ∧ (∀ sort from_date' to_date',
       malformed fromisoformat from_date' ∨ malformed fromisoformat to_date' →
       list_animals fromisoformat sort from_date' to_date' db = (Err ValueError, db)).
Proof.
  split_and!.
  - rewrite (list_animals_eq _ _ _ lo hi) by done. eexists. split; [done|].
    split; [apply merge_sort_Permutation|apply StronglySorted_merge_sort; apply _].
  - rewrite (list_animals_eq _ _ _ lo hi) by done. eexists. split; [done|].
    split; [apply merge_sort_Permutation|apply StronglySorted_merge_sort; apply _].
  - intros sort Hne Hname Hdesc. rewrite (list_animals_eq _ _ _ lo hi) by done.
    destruct sort as [|c s]; [done|]. simpl.
    by rewrite !bool_decide_eq_false_2.
  - by rewrite (list_animals_eq _ _ _ lo hi).
  - reflexivity.
  - intros sort from_date' to_date'.
    unfold malformed, list_animals, parse_date, mbind, session_bind, mret, session_ret, raise.
    destruct (given from_date') as [f|].
    + destruct (fromisoformat f) as [d|]; [|done].
      destruct (given to_date') as [t|]; [|by intros [|]].
      destruct (fromisoformat t) as [d'|]; [by intros [|]|done].
    + destruct (given to_date') as [t|]; [|by intros [|]].
      destruct (fromisoformat t) as [d'|]; [by intros [|]|done].
Qed.

(** C8. With each date parameter absent or ISO-8601, the listing
    holds exactly the rows whose [created_at] is at least the parsed
    [from_date] and at most the parsed [to_date], as far as they are
    given: in table order without [sort], rearranged with it; without
    dates it is the whole table. *)
Theorem list_animals_dates db from_date to_date lo hi
    (Hfrom : date_bound fromisoformat from_date = Some lo)
    (Hto : date_bound fromisoformat to_date = Some hi) :
  list_animals fromisoformat None from_date to_date db = (Ok (filter (within lo hi) db), db)
  ∧ (∀ sort rows db',
       list_animals fromisoformat sort from_date to_date db = (Ok rows, db') →
       rows ≡ₚ filter (within lo hi) db ∧ db' = db)
  ∧ (∀ a, a ∈ filter (within lo hi) db
          ↔ a ∈ db ∧ (∀ d, lo = Some d → d ≤ Animal.created_at a)
                   ∧ (∀ d, hi = Some d → Animal.created_at a ≤ d))
  ∧ list_animals fromisoformat None None None db = (Ok db, db).
Proof.
  split_and!.
  - by rewrite (list_animals_eq _ _ _ lo hi).
  - intros sort rows db'. rewrite (list_animals_eq _ _ _ lo hi) by done.
    destruct (given sort); repeat case_bool_decide; intros [= <- <-]; split;
      try done; apply merge_sort_Permutation.
  - intros a. rewrite list_elem_of_filter. unfold within. split.
    + intros [[Hlo Hhi] Ha]. split_and!; [done|by intros d ->..].
    + intros (Ha & Hlo & Hhi). split; [|done].
      split; [destruct lo|destruct hi]; simpl; auto.
  - rewrite (list_animals_eq _ _ _ None None) by done. simpl.
    by rewrite filter_all.
Qed.

End listing.

(** C10. An empty string for [sort], [from_date] or [to_date] does what
    leaving the parameter out does; with all three empty the whole
    table comes back in table order.  [fromisoformat] is not called on
    the empty string, whatever it would answer. *)
Theorem empty_parameter_is_absent fromisoformat sort from_date to_date db :
  list_animals fromisoformat (Some "") from_date to_date db
    = list_animals fromisoformat None from_date to_date db
  ∧ list_animals fromisoformat sort (Some "") to_date db
    = list_animals fromisoformat sort None to_date db
  ∧ list_animals fromisoformat sort from_date (Some "") db
    = list_animals fromisoformat sort from_date None db
  ∧ list_animals fromisoformat (Some "") (Some "") (Some "") db = (Ok db, db).
Proof.
  split_and!; try reflexivity.
  unfold list_animals, all, mbind, session_bind, mret, session_ret. simpl.
  by rewrite filter_all.
Qed.

Lemma list_animals_sort_witness :
  (zoo_dates "" = None
   ∧ date_bound zoo_dates (Some "1970-01-01T00:00:00.000015") = Some (Some 15)
   ∧ date_bound zoo_dates None = Some None)
  ∧ (∃ rows, list_animals zoo_dates (Some "name")
               (Some "1970-01-01T00:00:00.000015") None zoo = (Ok rows, zoo)
             ∧ rows ≡ₚ filter (within (Some 15) None) zoo
             ∧ StronglySorted name_le rows)
  ∧ (∃ rows, list_animals zoo_dates (Some "-name")
               (Some "1970-01-01T00:00:00.000015") None zoo = (Ok rows, zoo)
             ∧ rows ≡ₚ filter (within (Some 15) None) zoo
             ∧ StronglySorted (flip name_le) rows)
  ∧ (∀ sort, sort ≠ "" → sort ≠ "name" → sort ≠ "-name" →
       list_animals zoo_dates (Some sort) (Some "1970-01-01T00:00:00.000015") None zoo
       = (Err InvalidSortParameter, zoo))
  ∧ list_animals zoo_dates (Some "") (Some "1970-01-01T00:00:00.000015") None zoo
    = (Ok (filter (within (Some 15) None) zoo), zoo)
  ∧ (∀ from_date' to_date',
       list_animals zoo_dates (Some "") from_date' to_date' zoo
       = list_animals zoo_dates None from_date' to_date' zoo)
  ∧ (∀ sort from_date' to_date',
       malformed zoo_dates from_date' ∨ malformed zoo_dates to_date' →
       list_animals zoo_dates sort from_date' to_date' zoo = (Err ValueError, zoo)).
Proof.
  split; [by split_and!|].
  exact (list_animals_sort zoo_dates eq_refl zoo
           (Some "1970-01-01T00:00:00.000015") None (Some 15) None eq_refl eq_refl).
Defined.

(** C7 as stated fails twice over.  An empty [sort] is a supplied value
    other than "name" and "-name", and the listing comes back unsorted;
    and with a [from_date] that is not ISO-8601 an unknown [sort] raises
    ValueError, since the dates are parsed first. *)
Lemma list_animals_sort_exceptions :
  ("" ≠ "name" ∧ "" ≠ "-name"
   ∧ list_animals zoo_dates (Some "") None None zoo = (Ok zoo, zoo))
  ∧ ("size" ≠ "name" ∧ "size" ≠ "-name"
     ∧ list_animals zoo_dates (Some "size") (Some "yesterday") None zoo
       = (Err ValueError, zoo)).
Proof. by split_and!. Qed.

Lemma list_animals_dates_witness :
  (zoo_dates "" = None
   ∧ date_bound zoo_dates (Some "1970-01-01T00:00:00.000015") = Some (Some 15)
   ∧ date_bound zoo_dates (Some "1970-01-01T00:00:00.000020") = Some (Some 20))
  ∧ list_animals zoo_dates None (Some "1970-01-01T00:00:00.000015")
      (Some "1970-01-01T00:00:00.000020") zoo
    = (Ok (filter (within (Some 15) (Some 20)) zoo), zoo)
  ∧ (∀ sort rows db',
       list_animals zoo_dates sort (Some "1970-01-01T00:00:00.000015")
         (Some "1970-01-01T00:00:00.000020") zoo = (Ok rows, db') →
       rows ≡ₚ filter (within (Some 15) (Some 20)) zoo ∧ db' = zoo)
  ∧ (∀ a, a ∈ filter (within (Some 15) (Some 20)) zoo
          ↔ a ∈ zoo ∧ (∀ d, Some 15 = Some d → d ≤ Animal.created_at a)
                    ∧ (∀ d, Some 20 = Some d → Animal.created_at a ≤ d))
  ∧ list_animals zoo_dates None None None zoo = (Ok zoo, zoo).
Proof.
  split; [by split_and!|].
  exact (list_animals_dates zoo_dates eq_refl zoo
           (Some "1970-01-01T00:00:00.000015") (Some "1970-01-01T00:00:00.000020")
           (Some 15) (Some 20) eq_refl eq_refl).
Defined.

(** ** The matcher's work list runs dry *)

Module SequenceMatcherFacts.
Import SequenceMatcher.

Section matcher.
Variables a b : list ascii.

Lemma scan_row_inside j2len alo blo bhi i js newj2len best :
  (alo ≤ i)%nat → short alo i j2len →
  short alo (S i) newj2len → inside alo (S i) best →
  short alo (S i) (scan_row j2len blo bhi i js newj2len best).1
  ∧ inside alo (S i) (scan_row j2len blo bhi i js newj2len best).2.
Proof.
  intros Hi Hprev. revert newj2len best.
  induction js as [|j js IH]; intros newj2len best Hnew Hbest; simpl; [done|].
  repeat case_decide; try done; try (by apply IH).
  - apply IH.
    + intros j' k'. rewrite lookup_insert. case_decide; [|by apply Hnew].
      intros [= <-]. destruct j as [|j]; [lia|].
      destruct (j2len !! j) as [k|] eqn:Hk; simpl; [|lia].
      apply Hprev in Hk. lia.
    + unfold inside, size; simpl.
      destruct j as [|j]; [lia|].
      destruct (j2len !! j) as [k|] eqn:Hk; simpl; [|lia].
      apply Hprev in Hk. lia.
  - apply IH; [|done].
    intros j' k'. rewrite lookup_insert. case_decide; [|by apply Hnew].
    intros [= <-]. destruct j as [|j]; [lia|].
    destruct (j2len !! j) as [k|] eqn:Hk; simpl; [|lia].
    apply Hprev in Hk. lia.
Qed.

Lemma rows_inside alo blo bhi n i st :
  (alo ≤ i)%nat → short alo i st.1 → inside alo i st.2 →
  inside alo (i + n) (foldl (row a b blo bhi) st (seq i n)).2.
Proof.
  revert i st. induction n as [|n IH]; intros i st Hi Hshort Hbest; simpl.
  - by rewrite Nat.add_0_r.
  - replace (i + S n)%nat with (S i + n)%nat by lia.
    assert (inside alo (S i) st.2) as Hbest' by (unfold inside in *; lia).
    assert (short alo (S i) ∅) as Hempty by (intros j k; by rewrite lookup_empty).
    unfold row at 2.
    destruct (scan_row_inside st.1 alo blo bhi i
                (default [] (a !! i ≫= (chain_b b !!.))) ∅ st.2
                Hi Hshort Hempty Hbest') as [? ?].
    apply IH; [lia|done..].
Qed.

Lemma extend_left_inside fuel alo blo i m :
  inside alo i m → inside alo i (extend_left a b fuel alo blo m).
Proof.
  revert m. induction fuel as [|fuel IH]; intros [[besti bestj] bestsize] Hm; [done|].
  simpl. destruct (_ && _) eqn:Hc; [|done].
  apply andb_prop in Hc as [[Hlt%bool_decide_eq_true _]%andb_prop _].
  apply IH. unfold inside, size in *; simpl in *. lia.
Qed.

Lemma extend_right_inside fuel alo ahi bhi i m :
  (i ≤ ahi)%nat →
  inside alo i m → inside alo ahi (extend_right a b fuel ahi bhi m).
Proof.
  intros Hi. revert m. induction fuel as [|fuel IH];
    intros [[besti bestj] bestsize] Hm.
  { unfold inside in *. simpl in *. lia. }
  simpl. destruct (_ && _) eqn:Hc.
  - apply andb_prop in Hc as [[Hlt%bool_decide_eq_true _]%andb_prop _].
    assert (inside alo ahi (besti, bestj, S bestsize)) as Hm'
      by (unfold inside, size in *; simpl in *; lia).
    clear -Hm' IH. revert Hm'. generalize (besti, bestj, S bestsize).
    clear IH. induction fuel as [|fuel IH]; intros [[bi bj] bs] Hm; [done|].
    simpl. destruct (_ && _) eqn:Hc; [|done].
    apply andb_prop in Hc as [[Hlt%bool_decide_eq_true _]%andb_prop _].
    apply IH. unfold inside, size in *; simpl in *. lia.
  - unfold inside in *. simpl in *. lia.
Qed.

(** [find_longest_match] answers with a block inside [a[alo:ahi]]. *)
Lemma find_longest_match_inside alo ahi blo bhi :
  (alo ≤ ahi)%nat → inside alo ahi (find_longest_match a b alo ahi blo bhi).
Proof.
  intros Hle. unfold find_longest_match.
  apply (extend_right_inside _ alo ahi bhi ahi); [done|].
  apply extend_left_inside.
  pose proof (rows_inside alo blo bhi (ahi - alo) alo (∅, (alo, blo, O))) as Hrows.
  replace (alo + (ahi - alo))%nat with ahi in Hrows by lia.
  apply Hrows; [done| |].
  - intros j k. simpl. by rewrite lookup_empty.
  - unfold inside, size. simpl. lia.
Qed.

Lemma blocks_loop_total fuel queue blocks :
  Forall ordered queue → (sum_list (weight <$> queue) ≤ fuel)%nat →
  is_Some (blocks_loop a b fuel queue blocks).
Proof.
  revert queue blocks. induction fuel as [|fuel IH]; intros queue blocks Hq Hfuel.
  { destruct queue as [|[[[alo ahi] blo] bhi] queue]; [by eexists|].
    simpl in Hfuel. unfold weight in Hfuel. lia. }
  destruct queue as [|[[[alo ahi] blo] bhi] queue]; [by eexists|].
  apply Forall_cons in Hq as [Hitem Hq]. unfold ordered in Hitem. simpl in Hitem.
  cbn [fmap list_fmap sum_list sum_list_with] in Hfuel.
  unfold weight at 1 in Hfuel. simpl in Hfuel.
  cbn [blocks_loop].
  pose proof (find_longest_match_inside alo ahi blo bhi Hitem) as Hin.
  destruct (find_longest_match a b alo ahi blo bhi) as [[i j] k].
  unfold inside, size in Hin. simpl in Hin.
  case_decide as Hk; [apply IH; [done|lia]|].
  apply IH.
  - repeat case_decide; simpl; repeat (apply Forall_cons; split);
      try done; unfold ordered; simpl; lia.
  - rewrite !fmap_app, !sum_list_with_app.
    set (rest := sum_list (weight <$> queue)) in *.
    repeat case_decide; simpl; unfold weight; simpl; lia.
Qed.

(** The fuel that [get_matching_blocks] hands to the loop is enough. *)
Lemma get_matching_blocks_total :
  is_Some (blocks_loop a b (2 * length a + 1) [(O, length a, O, length b)] []).
Proof.
  apply blocks_loop_total.
  - apply Forall_singleton. unfold ordered. simpl. lia.
  - simpl. unfold weight. simpl. lia.
Qed.

End matcher.
End SequenceMatcherFacts.

(** ** Search *)

Lemma search_animals_eq name db :
  search_animals name db =
  if decide (pattern_fits (py_lower name) ∨ db = []) then
    let first := filter (like_stage (py_lower name)) db in
    if is_empty first then
      let second :=
        filter (λ a, similar (py_lower name) (py_lower (Animal.name a))) db in
      if is_empty second then (Err SearchNotFound, db) else (Ok second, db)
    else (Ok first, db)
  else (Err OperationalError, db).
Proof.
  unfold search_animals, query_like, mbind, session_bind, mret, session_ret, query_all,
    raise.
  destruct (decide (pattern_fits (py_lower name) ∨ db = [])); [|done].
  simpl. destruct (filter (like_stage _) db); simpl; [|done].
  rewrite (filter_all (λ _, True)) by done. by destruct (filter _ db).
Qed.

(** With a pattern within the limit the first query cannot fail. *)
Lemma search_animals_fits name db :
  pattern_fits (py_lower name) →
  search_animals name db =
  let first := filter (like_stage (py_lower name)) db in
  if is_empty first then
    let second :=
      filter (λ a, similar (py_lower name) (py_lower (Animal.name a))) db in
    if is_empty second then (Err SearchNotFound, db) else (Ok second, db)
  else (Ok first, db).
Proof. intros Hfits. rewrite search_animals_eq, decide_True; [done|by left]. Qed.

(** A returned value shows that the first query has not failed. *)
Lemma search_animals_Ok name db rows db' :
  search_animals name db = (Ok rows, db') → pattern_fits (py_lower name) ∨ db = [].
Proof. rewrite search_animals_eq. by case_decide. Qed.

(** When the first query finds no row, the answer is the set of rows
    whose folded name reaches ratio 0.6 against the folded query, and
    SearchNotFound when there is none. *)
Lemma search_animals_fallback name db :
  pattern_fits (py_lower name) →
  filter (like_stage (py_lower name)) db = [] →
  let second := filter (λ a, similar (py_lower name) (py_lower (Animal.name a))) db in
  search_animals name db =
  if is_empty second then (Err SearchNotFound, db) else (Ok second, db).
Proof. intros Hfits Hfirst. rewrite search_animals_fits by done. simpl. by rewrite Hfirst. Qed.

(** The bytes of a text: at least one and at most two for a character,
    and folding keeps the count. *)
Lemma utf8_length_bounds s :
  Z.of_nat (String.length s) ≤ utf8_length s ≤ 2 * Z.of_nat (String.length s).
Proof.
  induction s as [|c s IH]; [done|]. cbn [utf8_length String.length].
  unfold utf8_size. destruct (is_ascii c); lia.
Qed.

Lemma utf8_length_app s t : utf8_length (s +:+ t) = utf8_length s + utf8_length t.
Proof. induction s as [|c s IH]; [done|]. simpl. rewrite IH. lia. Qed.

Lemma utf8_length_pattern q : utf8_length (contains_pattern q) = utf8_length q + 2.
Proof.
  unfold contains_pattern. cbn [utf8_length]. rewrite utf8_length_app.
  cbn [utf8_length]. change (utf8_size percent) with 1. lia.
Qed.

Lemma map_chars_length f s : String.length (map_chars f s) = String.length s.
Proof. induction s as [|c s IH]; simpl; [done|]. by rewrite IH. Qed.

(** A query of at most 24999 characters always fits. *)
Lemma pattern_fits_short q : Z.of_nat (String.length q) ≤ 24999 → pattern_fits q.
Proof.
  intros Hq. unfold pattern_fits, max_like_pattern_length. rewrite utf8_length_pattern.
  pose proof (utf8_length_bounds q). lia.
Qed.

(** *** LIKE on a query without wildcards *)

Lemma like_percent pattern s :
  like (String percent pattern) s =
  like pattern s
  || match s with
     | EmptyString => false
     | String _ s' => like (String percent pattern) s'
     end.
Proof. by destruct s. Qed.

Lemma like_char p pattern s :
  p ≠ percent →
  like (String p pattern) s =
  match s with
  | EmptyString => false
  | String c s' =>
    (bool_decide (p = underscore) || bool_decide (sql_lower_char p = sql_lower_char c))
    && like pattern s'
  end.
Proof. intros Hp. simpl. by rewrite bool_decide_eq_false_2. Qed.

Lemma like_any s : like (String percent EmptyString) s = true.
Proof.
  induction s as [|c s IH]; [done|]. rewrite like_percent, IH. apply orb_true_r.
Qed.

Lemma like_prefix q s :
  all_chars (λ c, negb (wildcard c)) q = true → folded q = true → folded s = true →
  like (q +:+ String percent EmptyString) s = is_prefix q s.
Proof.
  revert s. induction q as [|p q IH]; intros s Hplain Hq Hs.
  { rewrite like_any. by destruct s. }
  simpl in Hplain, Hq.
  apply andb_prop in Hplain as [Hp Hplain], Hq as [Hfp%bool_decide_eq_true Hq].
  apply negb_true_iff, orb_false_elim in Hp
    as [Hpc%bool_decide_eq_false Hus%bool_decide_eq_false].
  change (String p q +:+ String percent EmptyString)
    with (String p (q +:+ String percent EmptyString)).
  rewrite like_char by done. destruct s as [|c s]; [done|].
  simpl in Hs. apply andb_prop in Hs as [Hfc%bool_decide_eq_true Hs].
  rewrite (bool_decide_eq_false_2 (p = underscore)) by done.
  rewrite Hfp, Hfc, IH by done. done.
Qed.

Lemma like_substring q s :
  all_chars (λ c, negb (wildcard c)) q = true → folded q = true → folded s = true →
  like (contains_pattern q) s = is_substring q s.
Proof.
  intros Hplain Hq. unfold contains_pattern.
  induction s as [|c s IH]; intros Hs.
  - rewrite like_percent, like_prefix by done. simpl. by rewrite !orb_false_r.
  - rewrite like_percent, like_prefix by done. simpl in Hs.
    apply andb_prop in Hs as [_ Hs]. rewrite IH by done. done.
Qed.

Lemma lower_char_facts c :
  sql_lower_char (py_lower_char c) = py_lower_char c
  ∧ sql_lower_char (sql_lower_char c) = sql_lower_char c
  ∧ wildcard (py_lower_char c) = wildcard c
  ∧ bool_decide (py_lower_char c = nul) = bool_decide (c = nul)
  ∧ bool_decide (sql_lower_char c = nul) = bool_decide (c = nul).
Proof. by_cases_on_char c. Qed.

Lemma py_lower_folded q : folded (py_lower q) = true.
Proof.
  unfold folded, py_lower. induction q as [|c q IH]; simpl; [done|].
  rewrite IH, andb_true_r. apply bool_decide_eq_true, lower_char_facts.
Qed.

Lemma sql_lower_folded s : folded (sql_lower s) = true.
Proof.
  unfold folded, sql_lower. induction s as [|c s IH]; simpl; [done|].
  rewrite IH, andb_true_r. apply bool_decide_eq_true, lower_char_facts.
Qed.

(** Text without U+0000 is its own C string, and folding keeps it so. *)
Lemma c_string_no_nul s : no_nul s = true → c_string s = s.
Proof.
  unfold no_nul. induction s as [|c s IH]; simpl; [done|].
  intros [Hc Hs]%andb_prop. apply negb_true_iff in Hc. rewrite Hc, IH; done.
Qed.

Lemma no_nul_lower s : no_nul (py_lower s) = no_nul s ∧ no_nul (sql_lower s) = no_nul s.
Proof.
  unfold no_nul, py_lower, sql_lower. induction s as [|c s [IHp IHs]]; simpl; [done|].
  destruct (lower_char_facts c) as (_ & _ & _ & -> & ->). by rewrite IHp, IHs.
Qed.

Lemma no_nul_pattern q : no_nul q = true → no_nul (contains_pattern q) = true.
Proof.
  unfold no_nul, contains_pattern. simpl. induction q as [|c q IH]; simpl; [done|].
  intros [-> Hq]%andb_prop. by apply IH.
Qed.

Lemma plain_split q :
  plain q = true → all_chars (λ c, negb (wildcard c)) q = true ∧ no_nul q = true.
Proof.
  unfold plain, no_nul. induction q as [|c q IH]; simpl; [done|].
  intros [[-> ->]%andb_prop Hq]%andb_prop. by apply IH.
Qed.

Lemma ascii_text_split s :
  ascii_text s = true → all_chars is_ascii s = true ∧ no_nul s = true.
Proof.
  unfold ascii_text, no_nul. induction s as [|c s IH]; simpl; [done|].
  intros [[-> ->]%andb_prop Hs]%andb_prop. by apply IH.
Qed.

Lemma py_lower_no_wildcard q :
  all_chars (λ c, negb (wildcard c)) (py_lower q) = all_chars (λ c, negb (wildcard c)) q.
Proof.
  unfold py_lower. induction q as [|c q IH]; simpl; [done|]. rewrite IH.
  by destruct (lower_char_facts c) as (_ & _ & -> & _).
Qed.

(** Every name that [validate_name] lets through is such a text. *)
Lemma validate_name_ascii_text name r :
  validate_name name = Ok r → ascii_text name = true.
Proof.
  unfold validate_name. repeat case_match; try done. intros _.
  match goal with H : negb _ = false |- _ => apply negb_false_iff in H; rename H into Hm end.
  destruct name as [|c s]; [done|]. simpl in Hm. apply andb_prop in Hm as [Hc Hs].
  assert (∀ x, name_char x = true → is_ascii x && negb (bool_decide (x = nul)) = true)
    as Hchar by (intros x; by_cases_on_char x).
  unfold ascii_text. simpl. rewrite (Hchar c Hc). simpl.
  clear -Hs Hchar. induction s as [|d s IH]; [done|]. simpl in *.
  destruct (name_char d) eqn:Hd.
  - rewrite (Hchar d Hd). simpl. auto.
  - unfold at_dollar in Hs. apply orb_prop in Hs as [H|H];
      apply bool_decide_eq_true in H; [done|]. by injection H as -> ->.
Qed.

(** For a query without [%], [_] and U+0000, and a row whose name is
    ASCII text, the first query selects the row exactly when its name
    contains the query up to case. *)
Lemma like_stage_plain q a :
  plain q = true → ascii_text (Animal.name a) = true →
  like_stage (py_lower q) a ↔ contains_ci q (Animal.name a).
Proof.
  intros [Hq Hnq]%plain_split [Ha Hna]%ascii_text_split.
  unfold like_stage, contains_ci, sql_like.
  rewrite !c_string_no_nul.
  - rewrite like_substring.
    + by rewrite <- (py_sql_lower_ascii _ Ha).
    + by rewrite py_lower_no_wildcard.
    + apply py_lower_folded.
    + apply sql_lower_folded.
  - by rewrite (proj2 (no_nul_lower _)).
  - apply no_nul_pattern. by rewrite (proj1 (no_nul_lower _)).
Qed.

(** So on such a query and table the handler does what the
    specification says of both stages. *)
Lemma search_animals_plain q db :
  plain q = true → Forall (λ a, ascii_text (Animal.name a) = true) db →
  pattern_fits (py_lower q) →
  search_animals q db =
  let first := filter (λ a, contains_ci q (Animal.name a)) db in
  if is_empty first then
    let second := filter (λ a, similar (py_lower q) (py_lower (Animal.name a))) db in
    if is_empty second then (Err SearchNotFound, db) else (Ok second, db)
  else (Ok first, db).
Proof.
  intros Hq Hdb Hfits. rewrite search_animals_fits by done. simpl.
  replace (filter (like_stage (py_lower q)) db)
    with (filter (λ a, contains_ci q (Animal.name a)) db); [done|].
  induction Hdb as [|a db Ha Hdb IH]; [done|].
  rewrite !filter_cons, IH.
  destruct (decide (contains_ci q (Animal.name a))) as [Hc|Hc];
    [rewrite decide_True|rewrite decide_False]; try done;
    by rewrite like_stage_plain.
Qed.

(** *** The wildcard query *)

(** C2. No name in the example table contains "_", yet the first query
    of a search for "_" selects every row: in [LIKE] the underscore
    stands for any one character. *)
Theorem search_underscore_first_stage :
  filter (λ a, contains_ci "_" (Animal.name a)) zoo = []
  ∧ query_all (like_stage (py_lower "_")) zoo = (Ok zoo, zoo)
  ∧ search_animals "_" zoo = (Ok zoo, zoo).
Proof. by split_and!. Qed.

(** C3. A search for "_" in the example table has no substring match
    and no row within ratio 0.6, so the contract asks for
    SearchNotFound; the handler returns every row and never consults the
    fallback. *)
Theorem search_underscore_no_fallback :
  filter (λ a, contains_ci "_" (Animal.name a)) zoo = []
  ∧ filter (λ a, similar (py_lower "_") (py_lower (Animal.name a))) zoo = []
  ∧ search_animals "_" zoo = (Ok zoo, zoo).
Proof. by split_and!. Qed.

(** The examples of the specification: "lion" finds "Lion" in the first
    stage, "lioness" finds it through the fallback with ratio 8/11, and
    a query far from every name raises SearchNotFound. *)
Lemma search_examples :
  search_animals "lion" zoo = (Ok [Animal.mk 1 "Lion" 10], zoo)
  ∧ SequenceMatcher.ratio "lioness" "lion" = (8 # 11)%Q
  ∧ search_animals "lioness" zoo = (Ok [Animal.mk 1 "Lion" 10], zoo)
  ∧ search_animals "qqq" zoo = (Err SearchNotFound, zoo).
Proof. by split_and!. Qed.

(** * Further properties of the handlers *)

(** ** What validate_name lets through *)

Lemma skip_name_chars_split s :
  ∃ w, s = w +:+ skip_name_chars s ∧ all_chars name_char w = true.
Proof.
  induction s as [|c s (w & Hs & Hw)]; [by exists EmptyString|].
  simpl. destruct (name_char c) eqn:Hc.
  - exists (String c w). split; [change (String c s = String c (w +:+ skip_name_chars s));
      by rewrite <- Hs|]. simpl. by rewrite Hc.
  - by exists EmptyString.
Qed.

Lemma skip_name_chars_app w r :
  all_chars name_char w = true → skip_name_chars (w +:+ r) = skip_name_chars r.
Proof.
  induction w as [|c w IH]; [done|]. simpl. intros [Hc Hw]%andb_prop.
  change (String c w +:+ r) with (String c (w +:+ r)). simpl. rewrite Hc. auto.
Qed.

Lemma append_empty_r s : s +:+ EmptyString = s.
Proof. induction s as [|c s IH]; [done|]. change (String c (s +:+ EmptyString) = String c s). by rewrite IH. Qed.

Lemma last_char_name_chars c w :
  all_chars name_char (String c w) = true →
  ∃ d, last_char (String c w) = Some d ∧ name_char d = true.
Proof.
  revert c. induction w as [|e w IH]; intros c; simpl.
  - intros [Hc _]%andb_prop. eauto.
  - intros [_ Hw]%andb_prop. apply (IH e Hw).
Qed.

Lemma last_char_snoc w d : last_char (w +:+ String d EmptyString) = Some d.
Proof.
  induction w as [|c w IH]; [done|].
  change (String c w +:+ String d EmptyString) with (String c (w +:+ String d EmptyString)).
  simpl. rewrite IH. by destruct w.
Qed.

(** X1. [validate_name] returns a name exactly when the name has 2 to 30
    characters and is a non-empty run of letters and hyphens, or such a
    run followed by one newline; otherwise it raises InvalidNameFormat.
    The test for a final space never decides: the pattern refuses such a
    name anyway. *)
Theorem validate_name_accepts_iff name :
  (validate_name name = Ok name
   ↔ (2 ≤ String.length name ≤ 30)%nat
     ∧ ∃ w, w ≠ EmptyString ∧ all_chars name_char w = true
            ∧ (name = w ∨ name = w +:+ String newline EmptyString))
  ∧ (validate_name name = Ok name ∨ validate_name name = Err InvalidNameFormat)
  ∧ (last_char name = Some space → re_match_name name = false).
Proof.
  assert (name_char space = false ∧ name_char newline = false) as [Hsp Hnl] by done.
  assert (re_match_name name = true
          ↔ ∃ w, w ≠ EmptyString ∧ all_chars name_char w = true
                 ∧ (name = w ∨ name = w +:+ String newline EmptyString)) as Hre.
  { destruct name as [|c s]; simpl.
    { split; [done|]. intros (w & Hw & _ & [<-| H]); [done|]. by destruct w. }
    split.
    - intros [Hc Hd]%andb_prop. destruct (skip_name_chars_split s) as (w & Hs & Hw).
      exists (String c w). split; [done|]. split; [simpl; by rewrite Hc|].
      unfold at_dollar in Hd. apply orb_prop in Hd as [Hd|Hd];
        apply bool_decide_eq_true in Hd; rewrite Hd in Hs; rewrite Hs.
      + left. by rewrite append_empty_r.
      + by right.
    - intros ([|d w] & Hne & Hw & Hname); [done|]. simpl in Hw.
      apply andb_prop in Hw as [Hd Hw]. destruct Hname as [[= -> ->]|[= -> ->]].
      + rewrite Hd. rewrite <- (append_empty_r w), skip_name_chars_app by done. done.
      + rewrite Hd, skip_name_chars_app by done. done. }
  assert (last_char name = Some space → re_match_name name = false) as Hspace.
  { intros Hlast. apply not_true_is_false. intros Hm.
    apply Hre in Hm as ([|c w] & Hne & Hw & [->| ->]); [done|done| |].
    - destruct (last_char_name_chars c w Hw) as (d & Hd & Hdc). congruence.
    - rewrite last_char_snoc in Hlast. by injection Hlast. }
  split_and!; [|unfold validate_name; repeat case_match; auto|done].
  rewrite <- Hre. unfold validate_name. split.
  - repeat case_match; try done. intros _.
    repeat match goal with
           | H : (_ <? _)%nat = false |- _ => apply Nat.ltb_ge in H
           | H : negb _ = false |- _ => apply negb_false_iff in H
           end. split; [lia|done].
  - intros [[Hlo Hhi] Hm].
    rewrite (proj2 (Nat.ltb_ge _ _)), (proj2 (Nat.ltb_ge _ _)) by lia.
    rewrite Hm. simpl. case_bool_decide as Hlast; [|done].
    by rewrite (Hspace Hlast) in Hm.
Qed.

(** ** What a successful write has done *)

Lemma elem_of_place_row x animal (db : list Animal.t) :
  x ∈ place_row animal db ↔ x = animal ∨ x ∈ db.
Proof. by rewrite place_row_perm, elem_of_cons. Qed.



Lemma add_animal_Ok now draws name db r db' :
  add_animal now draws name db = (Ok r, db') →
  validate_name name = Ok name
  ∧ ¬ Exists (λ a, same_name_ci (Animal.name a) name) db
  ∧ (∃ rowid, new_rowid draws db = Some rowid ∧ r = Animal.mk rowid name now)
  ∧ db' = place_row r db.
Proof.
  intros Hok. assert (validate_name name = Ok name) as Hv.
  { rewrite add_animal_eq in Hok. destruct (validate_name name) as [n|e] eqn:Hv; [|done].
    by rewrite (validate_name_Ok _ _ Hv). }
  rewrite add_animal_valid in Hok by done. case_decide; [done|].
  destruct (new_rowid draws db) as [rowid|]; [|done].
  injection Hok as <- <-. eauto 10.
Qed.

Lemma update_animal_Ok id name db r db' :
  update_animal id name db = (Ok r, db') →
  validate_name name = Ok name
  ∧ ¬ Exists (λ a, same_name_ci (Animal.name a) name ∧ Animal.id a ≠ id) db
  ∧ (∃ animal, head (filter (λ a, Animal.id a = id) db) = Some animal
               ∧ r = set_name name animal)
  ∧ db' = rename id name <$> db.
Proof.
  intros Hok. assert (validate_name name = Ok name) as Hv.
  { rewrite update_animal_eq in Hok.
    destruct (validate_name name) as [n|e] eqn:Hv; [|done].
    by rewrite (validate_name_Ok _ _ Hv). }
  rewrite update_animal_valid in Hok by done.
  destruct (decide (in_int64 id)); [|done].
  destruct (head (filter _ db)) as [animal|]; [|done].
  case_decide; [done|]. injection Hok as <- <-. eauto 10.
Qed.

Lemma update_animal_in_int64 id name db r db' :
  update_animal id name db = (Ok r, db') → in_int64 id.
Proof.
  rewrite update_animal_eq. destruct (validate_name name); [|done]. by case_decide.
Qed.

Lemma delete_animal_Ok id db c db' :
  delete_animal id db = (Ok c, db') →
  id ∈ Animal.id <$> db ∧ c = deleted ∧ db' = filter (λ a, Animal.id a ≠ id) db.
Proof.
  rewrite delete_animal_eq. destruct (decide (in_int64 id)); [|done].
  destruct (head (filter _ db)) as [a|] eqn:Ha; [|done].
  intros [= <- <-]. apply first_Some in Ha as [Ha <-].
  split; [|done]. apply list_elem_of_fmap. eauto.
Qed.

Lemma first_by_id_rename id name (db : list Animal.t) :
  head (filter (λ a, Animal.id a = id) (rename id name <$> db))
  = rename id name <$> head (filter (λ a, Animal.id a = id) db).
Proof.
  induction db as [|a db IH]; [done|]. rewrite fmap_cons, !filter_cons, rename_id.
  case_decide; [done|]. apply IH.
Qed.

Lemma rename_rename id name a : rename id name (rename id name a) = rename id name a.
Proof. unfold rename. destruct a as [i n t]; simpl. by repeat (case_bool_decide; simpl). Qed.

(** At the last rowid: with the candidates 1, 2, ... the row gets the
    id 2 and stands between the two rows; with a hundred candidates that
    are all taken the INSERT fails. *)
Lemma add_animal_at_last_rowid :
  add_animal 40 count_draws "Okapi" full_zoo
  = (Ok (Animal.mk 2 "Okapi" 40),
     [Animal.mk 1 "Lion" 10; Animal.mk 2 "Okapi" 40; Animal.mk max_rowid "Ant" 30])
  ∧ add_animal 40 no_draws "Okapi" full_zoo = (Err OperationalError, full_zoo).
Proof. split; vm_compute; reflexivity. Qed.





(** X4. After a successful update, fetching the id returns the row the
    update returned, and the same update once more succeeds with the
    same row and changes nothing. *)
Theorem update_then_get id name db r db'
    (Hok : update_animal id name db = (Ok r, db')) :
  get_animal id db' = (Ok r, db')
  ∧ update_animal id name db' = (Ok r, db').
Proof.
  pose proof (update_animal_in_int64 _ _ _ _ _ Hok) as Hin.
  apply update_animal_Ok in Hok as (Hv & Hno & (animal & Hfirst & ->) & ->).
  pose proof (first_Some _ _ _ Hfirst) as [_ Hid].
  assert (rename id name animal = set_name name animal) as Hren
    by (unfold rename; by rewrite bool_decide_eq_true_2).
  split.
  - rewrite get_animal_eq, decide_True by done.
    by rewrite first_by_id_rename, Hfirst; simpl; rewrite Hren.
  - rewrite update_animal_valid, decide_True by done.
    rewrite first_by_id_rename, Hfirst. simpl.
    rewrite decide_False.
    + f_equal; [by rewrite Hren|].
      rewrite <- list_fmap_compose. apply list_fmap_ext. intros _ a _. apply rename_rename.
    + intros (a' & (a & -> & Ha)%list_elem_of_fmap & Hci & Hne)%Exists_exists.
      rewrite rename_id in Hne. apply Hno, Exists_exists. exists a. split; [done|].
      unfold rename in Hci. by rewrite bool_decide_eq_false_2 in Hci.
Qed.

Lemma update_then_get_witness :
  let r := Animal.mk 2 "Okapi" 20 in
  let db' := [Animal.mk 1 "Lion" 10; r; Animal.mk 3 "Ant" 30] in
  update_animal 2 "Okapi" zoo = (Ok r, db')
  ∧ get_animal 2 db' = (Ok r, db')
  ∧ update_animal 2 "Okapi" db' = (Ok r, db').
Proof.
  split; [reflexivity|].
  exact (update_then_get 2 "Okapi" zoo (Animal.mk 2 "Okapi" 20) _ eq_refl).
Defined.

(** X5. In a table with distinct ids a successful delete takes out
    exactly one row, the one with the id, and leaves the others as they
    stand and in their order. *)
Theorem delete_removes_one id db c db'
    (Hids : unique_ids db)
    (Hok : delete_animal id db = (Ok c, db')) :
  ∃ a before after,
    db = before ++ a :: after ∧ db' = before ++ after ∧ Animal.id a = id.
Proof.
  apply delete_animal_Ok in Hok as ((a & -> & Ha)%list_elem_of_fmap & _ & ->).
  apply list_elem_of_split in Ha as (before & after & ->).
  exists a, before, after. split_and!; try done.
  unfold unique_ids in Hids. rewrite fmap_app, fmap_cons in Hids.
  apply NoDup_app in Hids as (_ & Hbefore & [Hafter _]%NoDup_cons).
  rewrite filter_app, filter_cons, decide_False by auto.
  rewrite !filter_all; [done| |].
  - intros b Hb Heq. apply Hafter. rewrite <- Heq. apply list_elem_of_fmap. eauto.
  - intros b Hb Heq. apply (Hbefore (Animal.id b)).
    + apply list_elem_of_fmap. eauto.
    + rewrite Heq. left.
Qed.

Lemma delete_removes_one_witness :
  (unique_ids zoo
   ∧ delete_animal 2 zoo = (Ok deleted, [Animal.mk 1 "Lion" 10; Animal.mk 3 "Ant" 30]))
  ∧ ∃ a before after,
      zoo = before ++ a :: after
      ∧ [Animal.mk 1 "Lion" 10; Animal.mk 3 "Ant" 30] = before ++ after
      ∧ Animal.id a = 2.
Proof.
  assert (unique_ids zoo) as Hids by (apply (bool_decide_unpack _); vm_compute; exact I).
  split; [by split|].
  exact (delete_removes_one 2 zoo deleted _ Hids eq_refl).
Defined.

(** ** Invariants of the table *)

(** What one request does to the table, by cases. *)
Lemma serve_cases db r :
  serve db r = db
  ∨ (∃ now rowid name,
       validate_name name = Ok name ∧ (rowid ∉ Animal.id <$> db)
       ∧ serve db r = place_row (Animal.mk rowid name now) db)
  ∨ (∃ id name, validate_name name = Ok name ∧ serve db r = rename id name <$> db)
  ∨ (∃ id, serve db r = filter (λ a, Animal.id a ≠ id) db).
Proof.
  destruct r as [now draws name|id name|id]; simpl.
  - destruct (add_animal now draws name db) as [[r|e] db'] eqn:Hadd; simpl.
    + apply add_animal_Ok in Hadd as (Hv & _ & (rowid & Hrowid & ->) & ->).
      apply new_rowid_fresh in Hrowid. right. left. eauto 10.
    + left. rewrite add_animal_eq in Hadd. unfold insert_row in Hadd.
      repeat case_match; congruence.
  - destruct (update_animal id name db) as [[r|e] db'] eqn:Hupd; simpl.
    + apply update_animal_Ok in Hupd as (Hv & _ & _ & ->). right. right. left. eauto.
    + left. rewrite update_animal_eq in Hupd. unfold update_row in Hupd.
      repeat case_match; congruence.
  - rewrite delete_animal_eq. destruct (decide (in_int64 id)); [|by left].
    destruct (head (filter _ db)); simpl; eauto.
Qed.

Lemma names_valid_serve db r : names_valid db → names_valid (serve db r).
Proof.
  unfold names_valid. intros Hdb.
  destruct (serve_cases db r)
    as [->|[(now & rowid & name & Hv & _ & ->)|[(id & name & Hv & ->)|[id ->]]]]; [done|..].
  - rewrite Forall_forall in Hdb. apply Forall_forall.
    intros a [->|Ha]%elem_of_place_row; [done|]. by apply Hdb.
  - apply Forall_fmap. eapply Forall_impl; [exact Hdb|]. intros a Ha. simpl.
    unfold rename. by case_bool_decide.
  - apply Forall_forall. intros a [_ Ha]%list_elem_of_filter.
    rewrite Forall_forall in Hdb. by apply Hdb.
Qed.

Lemma validate_name_length name r :
  validate_name name = Ok r → (2 ≤ String.length name ≤ 30)%nat.
Proof.
  unfold validate_name. repeat case_match; try done. intros _.
  repeat match goal with
         | H : (_ <? _)%nat = false |- _ => apply Nat.ltb_ge in H
         end. lia.
Qed.

(** X6. Names get into the table only through [validate_name]: from a
    table whose names it returns, every sequence of requests leads to a
    table whose names it returns, so every stored name has 2 to 30
    characters, all of them ASCII. *)
Theorem names_valid_invariant rs db (Hdb : names_valid db) :
  names_valid (serve_all rs db)
  ∧ Forall (λ a, (2 ≤ String.length (Animal.name a) ≤ 30)%nat
                 ∧ ascii_text (Animal.name a) = true) (serve_all rs db).
Proof.
  assert (names_valid (serve_all rs db)) as Hvalid.
  { revert db Hdb. induction rs as [|r rs IH]; intros db Hdb; [done|].
    simpl. apply IH. by apply names_valid_serve. }
  split; [done|]. eapply Forall_impl; [exact Hvalid|]. intros a Ha. simpl in Ha. split.
  - by apply validate_name_length in Ha.
  - by apply validate_name_ascii_text in Ha.
Qed.

Lemma names_valid_invariant_witness :
  names_valid zoo
  ∧ names_valid (serve_all zoo_requests zoo)
  ∧ Forall (λ a, (2 ≤ String.length (Animal.name a) ≤ 30)%nat
                 ∧ ascii_text (Animal.name a) = true) (serve_all zoo_requests zoo).
Proof.
  assert (names_valid zoo) as Hzoo by (by repeat constructor).
  split; [done|]. exact (names_valid_invariant zoo_requests zoo Hzoo).
Defined.






(** ** Requests that raise, and requests that only read *)

Section reads.
Variable fromisoformat : string → option datetime.

Lemma list_animals_table sort from_date to_date db :
  (list_animals fromisoformat sort from_date to_date db).2 = db.
Proof.
  unfold list_animals, parse_date, all, mbind, session_bind, mret, session_ret, raise.
  destruct (given from_date) as [f|]; [destruct (fromisoformat f)|];
    (destruct (given to_date) as [t|]; [destruct (fromisoformat t)|]);
    (destruct (given sort) as [s|]; [repeat case_bool_decide|]); done.
Qed.

(** X8. No read changes the table, and a write that raises leaves it
    as it was: get, search and list always hand the table back
    unchanged, and create, update and delete do whenever they raise. *)
Theorem raise_leaves_table db :
  (∀ id, (get_animal id db).2 = db)
  ∧ (∀ name, (search_animals name db).2 = db)
  ∧ (∀ sort from_date to_date,
       (list_animals fromisoformat sort from_date to_date db).2 = db)
  ∧ (∀ now draws name e,
       (add_animal now draws name db).1 = Err e → (add_animal now draws name db).2 = db)
  ∧ (∀ id name e,
       (update_animal id name db).1 = Err e → (update_animal id name db).2 = db)
  ∧ (∀ id e, (delete_animal id db).1 = Err e → (delete_animal id db).2 = db).
Proof.
  split_and!.
  - intros id. rewrite get_animal_eq. by repeat case_match.
  - intros name. rewrite search_animals_eq. simpl. by repeat case_match.
  - intros. apply list_animals_table.
  - intros now draws name e. rewrite add_animal_eq. unfold insert_row.
    repeat case_match; simpl; congruence.
  - intros id name e. rewrite update_animal_eq. unfold update_row.
    repeat case_match; simpl; congruence.
  - intros id e. rewrite delete_animal_eq. by repeat case_match.
Qed.

End reads.

(** ** Status codes *)


(** ** The outcome of a listing *)

Section outcome.
Variable fromisoformat : string → option datetime.

(** X10. A listing raises ValueError exactly when a date parameter is
    given that [fromisoformat] refuses, whatever [sort] is; it raises
    InvalidSortParameter exactly when no date is refused and [sort] is
    given and is neither "name" nor "-name"; in every other case it
    returns rows.  No handler is registered for ValueError, so the first
    case is answered with 500, the second with 400. *)
Theorem list_animals_outcome sort from_date to_date db :
  let r := (list_animals fromisoformat sort from_date to_date db).1 in
  let bad_date := malformed fromisoformat from_date ∨ malformed fromisoformat to_date in
  (r = Err ValueError ↔ bad_date)
  ∧ (r = Err InvalidSortParameter ↔ ¬ bad_date ∧ unknown_sort sort)
  ∧ ((∃ rows, r = Ok rows) ↔ ¬ bad_date ∧ ¬ unknown_sort sort)
  ∧ status_code r
    = (if decide bad_date then 500 else if decide (unknown_sort sort) then 400 else 200)%nat.
Proof.
  intros r bad_date.
  assert ((r = Err ValueError ↔ bad_date)
          ∧ (r = Err InvalidSortParameter ↔ ¬ bad_date ∧ unknown_sort sort)
          ∧ ((∃ rows, r = Ok rows) ↔ ¬ bad_date ∧ ¬ unknown_sort sort))
    as (Hvalue & Hsort & Hrows).
  { subst r bad_date.
    unfold list_animals, malformed, unknown_sort, parse_date, all,
      mbind, session_bind, mret, session_ret, raise.
    destruct (given from_date) as [f|]; [destruct (fromisoformat f) eqn:Hf|];
      (destruct (given to_date) as [t|]; [destruct (fromisoformat t) eqn:Ht|]);
      (destruct (given sort) as [s|]; [repeat case_bool_decide|]); simpl;
      repeat split; intros;
      repeat match goal with
             | H : _ ∧ _ |- _ => destruct H
             | H : _ ∨ _ |- _ => destruct H
             | H : ∃ _, _ |- _ => destruct H
             end;
      try congruence; try tauto; eauto; by intros [?|?]. }
  split_and!; [done..|].
  case_decide as Hbad; [by rewrite (proj2 Hvalue Hbad)|].
  case_decide as Hunknown; [by rewrite (proj2 Hsort (conj Hbad Hunknown))|].
  by destruct (proj2 Hrows (conj Hbad Hunknown)) as [rows ->].
Qed.

End outcome.

(** ** Descending order *)

Section descending.
Variable fromisoformat : string → option datetime.

(** A sorted listing is the sort of the unsorted one. *)
Lemma list_animals_sorted_eq key from_date to_date db rows :
  key = "name" ∨ key = "-name" →
  list_animals fromisoformat (Some key) from_date to_date db = (Ok rows, db) →
  ∃ unsorted,
    list_animals fromisoformat None from_date to_date db = (Ok unsorted, db)
    ∧ unsorted `sublist_of` db
    ∧ rows = sort_rows (Some (if bool_decide (key = "name") then name_asc else name_desc))
               unsorted.
Proof.
  intros Hkey. unfold list_animals, parse_date, all,
    mbind, session_bind, mret, session_ret, raise.
  destruct (given from_date) as [f|]; [destruct (fromisoformat f)|];
    (destruct (given to_date) as [t|]; [destruct (fromisoformat t)|]);
    destruct Hkey as [-> | ->]; simpl; intros [= <-]; eexists;
    (split; [reflexivity|]); (split; [apply sublist_filter|done]).
Qed.

(** X11. In a table whose names are distinct, as the UNIQUE constraint
    keeps them, the listing with [sort=-name] is the listing with
    [sort=name] read backwards. *)
Theorem list_animals_desc_reverse from_date to_date db rows
    (Hnames : NoDup (Animal.name <$> db))
    (Hasc : list_animals fromisoformat (Some "name") from_date to_date db
            = (Ok rows, db)) :
  list_animals fromisoformat (Some "-name") from_date to_date db
  = (Ok (reverse rows), db).
Proof.
  destruct (list_animals_sorted_eq "name" _ _ _ _ (or_introl eq_refl) Hasc)
    as (unsorted & Hun & Hsub & ->). simpl.
  assert (∃ desc, list_animals fromisoformat (Some "-name") from_date to_date db
                  = (Ok desc, db)) as [desc Hdesc].
  { revert Hun. unfold list_animals, parse_date, all,
      mbind, session_bind, mret, session_ret, raise.
    destruct (given from_date) as [f|]; [destruct (fromisoformat f)|];
      (destruct (given to_date) as [t|]; [destruct (fromisoformat t)|]);
      simpl; intros [= <-]; by eexists. }
  rewrite Hdesc.
  destruct (list_animals_sorted_eq "-name" _ _ _ _ (or_intror eq_refl) Hdesc)
    as (unsorted' & Hun' & _ & ->). simpl.
  assert (unsorted' = unsorted) as -> by congruence.
  f_equal. f_equal.
  apply (StronglySorted_unique_strong (flip name_le)).
  - intros x y Hx Hy Hxy Hyx.
    rewrite merge_sort_Permutation in Hx.
    rewrite reverse_Permutation, merge_sort_Permutation in Hy.
    apply (NoDup_fmap_eq Animal.name db); [done|by eapply elem_of_sublist..|].
    unfold flip, name_le in *. by apply (anti_symm String.le).
  - apply StronglySorted_merge_sort; apply _.
  - apply Sorted_StronglySorted; [apply _|]. apply Sorted_reverse.
    apply Sorted_merge_sort, _.
  - by rewrite reverse_Permutation, !merge_sort_Permutation.
Qed.

End descending.

Lemma list_animals_desc_reverse_witness :
  let rows := [Animal.mk 3 "Ant" 30; Animal.mk 1 "Lion" 10; Animal.mk 2 "zebra" 20] in
  (NoDup (Animal.name <$> zoo)
   ∧ list_animals zoo_dates (Some "name") None None zoo = (Ok rows, zoo))
  ∧ list_animals zoo_dates (Some "-name") None None zoo = (Ok (reverse rows), zoo).
Proof.
  assert (NoDup (Animal.name <$> zoo)) as Hnames
    by (apply (bool_decide_unpack _); vm_compute; exact I).
  split; [by split|].
  exact (list_animals_desc_reverse zoo_dates None None zoo _ Hnames eq_refl).
Defined.

(** ** What a search returns *)

(** X12. A search that succeeds returns rows of the table, in table
    order and at least one, and leaves the table alone; either every
    returned row matched the LIKE query, or no row of the table did and
    every returned row reaches ratio 0.6 against the query. *)
Theorem search_animals_result name db rows db'
    (Hok : search_animals name db = (Ok rows, db')) :
  rows ≠ [] ∧ rows `sublist_of` db ∧ db' = db
  ∧ (Forall (like_stage (py_lower name)) rows
     ∨ (filter (like_stage (py_lower name)) db = []
        ∧ Forall (λ a, similar (py_lower name) (py_lower (Animal.name a))) rows)).
Proof.
  rewrite search_animals_eq in Hok. case_decide; [|done]. simpl in Hok.
  destruct (filter (like_stage _) db) as [|a first] eqn:Hfirst; simpl in Hok.
  - destruct (filter (λ a, similar _ _) db) as [|a second] eqn:Hsecond; [done|].
    simpl in Hok. injection Hok as <- <-. split_and!; [done| |done|].
    + rewrite <- Hsecond. apply sublist_filter.
    + right. split; [done|]. rewrite <- Hsecond.
      apply Forall_forall. by intros x [? _]%list_elem_of_filter.
  - injection Hok as <- <-. split_and!; [done| |done|].
    + rewrite <- Hfirst. apply sublist_filter.
    + left. rewrite <- Hfirst.
      apply Forall_forall. by intros x [? _]%list_elem_of_filter.
Qed.

Lemma search_animals_result_witness :
  search_animals "lioness" zoo = (Ok [Animal.mk 1 "Lion" 10], zoo)
  ∧ [Animal.mk 1 "Lion" 10] ≠ [] ∧ [Animal.mk 1 "Lion" 10] `sublist_of` zoo ∧ zoo = zoo
  ∧ (Forall (like_stage (py_lower "lioness")) [Animal.mk 1 "Lion" 10]
     ∨ (filter (like_stage (py_lower "lioness")) zoo = []
        ∧ Forall (λ a, similar (py_lower "lioness") (py_lower (Animal.name a)))
            [Animal.mk 1 "Lion" 10])).
Proof.
  split; [reflexivity|].
  exact (search_animals_result "lioness" zoo [Animal.mk 1 "Lion" 10] zoo eq_refl).
Defined.

Lemma sql_like_all s : sql_like s (contains_pattern EmptyString) = true.
Proof.
  unfold sql_like. change (c_string (contains_pattern EmptyString))
    with (String percent (String percent EmptyString)).
  rewrite like_percent, like_any. done.
Qed.

(** X13. A search for the empty string returns the whole table, in
    table order; it raises SearchNotFound only on an empty table. *)
Theorem search_animals_empty_query db :
  search_animals "" db
  = if is_empty db then (Err SearchNotFound, db) else (Ok db, db).
Proof.
  rewrite search_animals_fits by (by apply pattern_fits_short). simpl.
  rewrite (filter_all (like_stage EmptyString)).
  - destruct db; [done|done].
  - intros a _. unfold like_stage. by rewrite sql_like_all.
Qed.

Lemma is_prefix_refl s : is_prefix s s = true.
Proof. induction s as [|c s IH]; [done|]. simpl. by rewrite bool_decide_eq_true_2. Qed.

Lemma is_substring_refl s : is_substring s s = true.
Proof. destruct s; simpl; [done|]. by rewrite is_prefix_refl, bool_decide_eq_true_2. Qed.

Lemma validate_name_plain name r : validate_name name = Ok r → plain name = true.
Proof.
  unfold validate_name. repeat case_match; try done. intros _.
  match goal with H : negb _ = false |- _ => apply negb_false_iff in H; rename H into Hm end.
  destruct name as [|c s]; [done|]. simpl in Hm. apply andb_prop in Hm as [Hc Hs].
  assert (∀ x, name_char x = true → negb (wildcard x) && negb (bool_decide (x = nul)) = true)
    as Hchar by (intros x; by_cases_on_char x).
  unfold plain. simpl. rewrite (Hchar c Hc). simpl.
  clear -Hs Hchar. induction s as [|d s IH]; [done|]. simpl in *.
  destruct (name_char d) eqn:Hd.
  - rewrite (Hchar d Hd). simpl. auto.
  - unfold at_dollar in Hs. apply orb_prop in Hs as [H|H];
      apply bool_decide_eq_true in H; [done|]. by injection H as -> ->.
Qed.

(** X14. A stored name that [validate_name] returns is found by a
    search for it, however the query is cased: the row is among the rows
    returned. *)
Theorem search_animals_finds_name q a db
    (Ha : a ∈ db)
    (Hvalid : validate_name (Animal.name a) = Ok (Animal.name a))
    (Hq : same_name_ci q (Animal.name a)) :
  ∃ rows, search_animals q db = (Ok rows, db) ∧ a ∈ rows.
Proof.
  assert (like_stage (py_lower q) a) as Hlike.
  { rewrite Hq. apply like_stage_plain.
    - by eapply validate_name_plain.
    - by eapply validate_name_ascii_text.
    - unfold contains_ci. by rewrite is_substring_refl. }
  assert (a ∈ filter (like_stage (py_lower q)) db) as Hin
    by (by apply list_elem_of_filter).
  assert (pattern_fits (py_lower q)) as Hfits.
  { apply pattern_fits_short. rewrite Hq. unfold py_lower. rewrite map_chars_length.
    apply validate_name_length in Hvalid. lia. }
  rewrite search_animals_fits by done. simpl.
  destruct (filter (like_stage (py_lower q)) db) as [|b first] eqn:Hfirst.
  - by apply elem_of_nil in Hin.
  - simpl. eauto.
Qed.

Lemma search_animals_finds_name_witness :
  (Animal.mk 2 "zebra" 20 ∈ zoo
   ∧ validate_name "zebra" = Ok "zebra" ∧ same_name_ci "ZeBrA" "zebra")
  ∧ ∃ rows, search_animals "ZeBrA" zoo = (Ok rows, zoo) ∧ Animal.mk 2 "zebra" 20 ∈ rows.
Proof.
  assert (Animal.mk 2 "zebra" 20 ∈ zoo) as Hin by (right; left).
  split; [by split_and!|].
  exact (search_animals_finds_name "ZeBrA" (Animal.mk 2 "zebra" 20) zoo
           Hin eq_refl eq_refl).
Defined.

(** ** The ratio lies between 0 and 1 *)

Module RatioFacts.
Import SequenceMatcher SequenceMatcherFacts.

Section matcher.
Variables a b : list ascii.

Lemma scan_row_inside_b j2len blo bhi i js newj2len best :
  short_b blo bhi j2len → short_b blo bhi newj2len → inside_b blo bhi best →
  short_b blo bhi (scan_row j2len blo bhi i js newj2len best).1
  ∧ inside_b blo bhi (scan_row j2len blo bhi i js newj2len best).2.
Proof.
  intros Hprev. revert newj2len best.
  induction js as [|j js IH]; intros newj2len best Hnew Hbest; simpl; [done|].
  assert (¬ (j < blo)%nat → ¬ (bhi ≤ j)%nat →
          (blo + S (match j with O => O | S j' => default O (j2len !! j') end) ≤ j + 1)%nat)
    as Hk.
  { intros ??. destruct j as [|j]; [lia|].
    destruct (j2len !! j) as [k|] eqn:Hk; simpl; [|lia]. apply Hprev in Hk. lia. }
  repeat case_decide; try done; try (by apply IH).
  - apply IH.
    + intros j' k'. rewrite lookup_insert. case_decide; [|by apply Hnew].
      intros [= <-]. subst j'. split; [by apply Hk|lia].
    + unfold inside_b; simpl. specialize (Hk ltac:(done) ltac:(done)). lia.
  - apply IH; [|done].
    intros j' k'. rewrite lookup_insert. case_decide; [|by apply Hnew].
    intros [= <-]. subst j'. split; [by apply Hk|lia].
Qed.

Lemma rows_inside_b blo bhi rows st :
  short_b blo bhi st.1 → inside_b blo bhi st.2 →
  short_b blo bhi (foldl (row a b blo bhi) st rows).1
  ∧ inside_b blo bhi (foldl (row a b blo bhi) st rows).2.
Proof.
  revert st. induction rows as [|i rows IH]; intros st Hshort Hbest; [done|].
  simpl. unfold row at 2 4.
  assert (short_b blo bhi ∅) as Hempty by (intros j k; by rewrite lookup_empty).
  destruct (scan_row_inside_b st.1 blo bhi i
              (default [] (a !! i ≫= (chain_b b !!.))) ∅ st.2
              Hshort Hempty Hbest) as [? ?].
  by apply IH.
Qed.

Lemma extend_left_inside_b fuel alo blo bhi m :
  inside_b blo bhi m → inside_b blo bhi (extend_left a b fuel alo blo m).
Proof.
  revert m. induction fuel as [|fuel IH]; intros [[besti bestj] bestsize] Hm; [done|].
  simpl. destruct (_ && _) eqn:Hc; [|done].
  apply andb_prop in Hc as [[_ Hlt%bool_decide_eq_true]%andb_prop _].
  apply IH. unfold inside_b in *; simpl in *. lia.
Qed.

Lemma extend_right_inside_b fuel ahi blo bhi m :
  inside_b blo bhi m → inside_b blo bhi (extend_right a b fuel ahi bhi m).
Proof.
  revert m. induction fuel as [|fuel IH]; intros [[besti bestj] bestsize] Hm; [done|].
  simpl. destruct (_ && _) eqn:Hc; [|done].
  apply andb_prop in Hc as [[_ Hlt%bool_decide_eq_true]%andb_prop _].
  apply IH. unfold inside_b in *; simpl in *. lia.
Qed.

Lemma find_longest_match_inside_b alo ahi blo bhi :
  (blo ≤ bhi)%nat → inside_b blo bhi (find_longest_match a b alo ahi blo bhi).
Proof.
  intros Hle. unfold find_longest_match.
  apply extend_right_inside_b, extend_left_inside_b, rows_inside_b.
  - intros j k. simpl. by rewrite lookup_empty.
  - unfold inside_b. simpl. lia.
Qed.

(** The blocks the loop collects fit into the room its work list has
    left, in [a] and in [b]. *)
Lemma blocks_loop_room fuel queue blocks found :
  Forall ordered queue → Forall ordered_b queue →
  blocks_loop a b fuel queue blocks = Some found →
  (sum_list (size <$> found) ≤ sum_list (size <$> blocks) + sum_list (room_a <$> queue)
   ∧ sum_list (size <$> found) ≤ sum_list (size <$> blocks) + sum_list (room_b <$> queue))%nat.
Proof.
  revert queue blocks. induction fuel as [|fuel IH]; intros queue blocks Ha Hb.
  { destruct queue as [|[[[alo ahi] blo] bhi] queue]; [|done]. intros [= <-]. simpl. lia. }
  destruct queue as [|[[[alo ahi] blo] bhi] queue]; [intros [= <-]; simpl; lia|].
  apply Forall_cons in Ha as [Hia Ha]. apply Forall_cons in Hb as [Hib Hb].
  unfold ordered in Hia. unfold ordered_b in Hib. simpl in Hia, Hib.
  cbn [blocks_loop].
  pose proof (find_longest_match_inside a b alo ahi blo bhi Hia) as Hina.
  pose proof (find_longest_match_inside_b alo ahi blo bhi Hib) as Hinb.
  destruct (find_longest_match a b alo ahi blo bhi) as [[i j] k].
  unfold inside, inside_b, size in Hina, Hinb. simpl in Hina, Hinb.
  rewrite !fmap_cons. cbn [sum_list_with]. unfold room_a at 1, room_b at 1. simpl.
  case_decide as Hk.
  { intros Hloop. apply IH in Hloop; [lia|done..]. }
  intros Hloop. apply IH in Hloop.
  - revert Hloop. rewrite !fmap_app, !sum_list_with_app.
    set (ra := sum_list (room_a <$> queue)). set (rb := sum_list (room_b <$> queue)).
    set (sf := sum_list (size <$> found)). set (sb := sum_list (size <$> blocks)).
    repeat case_decide; simpl; unfold room_a, room_b, size; simpl; lia.
  - repeat case_decide; simpl; repeat (apply Forall_cons; split);
      try done; unfold ordered; simpl; lia.
  - repeat case_decide; simpl; repeat (apply Forall_cons; split);
      try done; unfold ordered_b; simpl; lia.
Qed.

Lemma collapse_sum cur blocks :
  sum_list (size <$> collapse cur blocks) = (size cur + sum_list (size <$> blocks))%nat.
Proof.
  revert cur. induction blocks as [|[[i2 j2] k2] blocks IH]; intros [[i1 j1] k1].
  - simpl. case_decide; simpl; unfold size in *; simpl in *; lia.
  - cbn [collapse]. case_decide.
    + rewrite IH. rewrite fmap_cons. simpl. unfold size; simpl. lia.
    + rewrite fmap_app, sum_list_with_app, IH, fmap_cons. simpl.
      case_decide; simpl; unfold size in *; simpl in *; lia.
Qed.

(** The matched characters are no more than either sequence has. *)
Lemma matches_le : (matches a b ≤ length a ∧ matches a b ≤ length b)%nat.
Proof.
  unfold matches, get_matching_blocks.
  destruct (get_matching_blocks_total a b) as [found Hfound]. rewrite Hfound. simpl.
  apply blocks_loop_room in Hfound.
  - rewrite fmap_app, sum_list_with_app, collapse_sum.
    rewrite (merge_sort_Permutation block_le found). simpl in *.
    unfold room_a, room_b, size in *. simpl in *. lia.
  - apply Forall_singleton. unfold ordered. simpl. lia.
  - apply Forall_singleton. unfold ordered_b. simpl. lia.
Qed.

End matcher.

Lemma calculate_ratio_le_iff M T (p q : positive) :
  T ≠ O →
  (Z.pos p # q <= calculate_ratio M T)%Q
  ↔ (Z.pos p * Z.of_nat T ≤ 2 * Z.of_nat M * Z.pos q)%Z.
Proof.
  intros HT. unfold calculate_ratio. rewrite decide_False by done.
  destruct T as [|T]; [done|].
  unfold Qle, Qdiv, Qmult, Qinv, inject_Z. simpl Qnum. simpl Qden.
  rewrite Pos.mul_1_l. lia.
Qed.

End RatioFacts.

(** ** The ratio and the lengths *)

Lemma list_ascii_length s : length (String.list_ascii_of_string s) = String.length s.
Proof. induction s as [|c s IH]; simpl; [done|]. by rewrite IH. Qed.

(** The test [ratio() >= 0.6] in whole numbers: ten times the matched
    characters against three times the two lengths together. *)
Lemma similar_iff x y :
  similar x y
  ↔ (3 * (String.length x + String.length y)
     ≤ 10 * SequenceMatcher.matches (String.list_ascii_of_string x)
                                    (String.list_ascii_of_string y))%nat.
Proof.
  unfold similar, SequenceMatcher.ratio. rewrite !list_ascii_length.
  rewrite Is_true_true, Qle_bool_iff.
  destruct (decide ((String.length x + String.length y)%nat = O)) as [Hz|Hnz].
  - rewrite Hz. unfold SequenceMatcher.calculate_ratio. simpl. split; [lia|done].
  - change (0.6)%Q with (Z.pos 6 # 10). rewrite RatioFacts.calculate_ratio_le_iff by done. lia.
Qed.

(** X15. The ratio of [SequenceMatcher] is a number from 0 to 1, and it
    is 0 against the empty string unless both strings are empty. *)
Theorem ratio_bounds x y :
  (0 <= SequenceMatcher.ratio x y)%Q
  ∧ (SequenceMatcher.ratio x y <= 1)%Q
  ∧ (x ≠ EmptyString → (SequenceMatcher.ratio x EmptyString == 0)%Q
                       ∧ (SequenceMatcher.ratio EmptyString x == 0)%Q).
Proof.
  assert (∀ u v,
    let M := SequenceMatcher.matches (String.list_ascii_of_string u)
               (String.list_ascii_of_string v) in
    (M ≤ String.length u ∧ M ≤ String.length v)%nat) as Hle.
  { intros u v. simpl. rewrite <- !list_ascii_length. apply RatioFacts.matches_le. }
  assert (∀ M T, (2 * M ≤ T)%nat →
            (0 <= SequenceMatcher.calculate_ratio M T)%Q
            ∧ (SequenceMatcher.calculate_ratio M T <= 1)%Q) as Hcalc.
  { intros M T HMT. unfold SequenceMatcher.calculate_ratio. case_decide; [done|].
    destruct T as [|T]; [done|].
    unfold Qle, Qdiv, Qmult, Qinv, inject_Z. simpl Qnum. simpl Qden.
    rewrite Pos.mul_1_l. lia. }
  split_and!.
  - unfold SequenceMatcher.ratio. rewrite !list_ascii_length.
    apply Hcalc. specialize (Hle x y). simpl in Hle. lia.
  - unfold SequenceMatcher.ratio. rewrite !list_ascii_length.
    apply Hcalc. specialize (Hle x y). simpl in Hle. lia.
  - intros Hx. assert (String.length x ≠ O) as Hlen by (by destruct x).
    pose proof (Hle x EmptyString) as [_ H1]. pose proof (Hle EmptyString x) as [H2 _].
    unfold SequenceMatcher.ratio. rewrite !list_ascii_length.
    cbn [String.length] in *.
    assert (∀ M T, M = O → T ≠ O → (SequenceMatcher.calculate_ratio M T == 0)%Q) as Hzero.
    { intros M T -> HT. unfold SequenceMatcher.calculate_ratio.
      rewrite decide_False by done. reflexivity. }
    split; apply Hzero; lia.
Qed.

(** X16. The fallback of a search only returns rows whose name is of
    a length near the query's: three times the longer of the two is at
    most seven times the shorter. *)
Theorem search_animals_fallback_lengths name db rows db'
    (Hok : search_animals name db = (Ok rows, db'))
    (Hfirst : filter (like_stage (py_lower name)) db = []) :
  Forall (λ a, (3 * String.length name ≤ 7 * String.length (Animal.name a)
                ∧ 3 * String.length (Animal.name a) ≤ 7 * String.length name)%nat)
         rows.
Proof.
  rewrite search_animals_eq in Hok. case_decide; [|done].
  simpl in Hok. rewrite Hfirst in Hok. simpl in Hok.
  destruct (filter (λ a, similar _ _) db) as [|b second] eqn:Hsecond; [done|].
  simpl in Hok. injection Hok as <- _. rewrite <- Hsecond.
  apply Forall_forall. intros a [Ha _]%list_elem_of_filter.
  apply similar_iff in Ha. unfold py_lower in Ha. rewrite !map_chars_length in Ha.
  pose proof (RatioFacts.matches_le
                (String.list_ascii_of_string (map_chars py_lower_char name))
                (String.list_ascii_of_string (map_chars py_lower_char (Animal.name a))))
    as [H1 H2].
  rewrite !list_ascii_length, !map_chars_length in H1, H2. lia.
Qed.

Lemma search_animals_fallback_lengths_witness :
  (search_animals "lioness" zoo = (Ok [Animal.mk 1 "Lion" 10], zoo)
   ∧ filter (like_stage (py_lower "lioness")) zoo = [])
  ∧ Forall (λ a, (3 * String.length "lioness" ≤ 7 * String.length (Animal.name a)
                  ∧ 3 * String.length (Animal.name a) ≤ 7 * String.length "lioness")%nat)
           [Animal.mk 1 "Lion" 10].
Proof.
  split; [by split|].
  exact (search_animals_fallback_lengths "lioness" zoo [Animal.mk 1 "Lion" 10] zoo
           eq_refl eq_refl).
Defined.

(** ** After a delete *)



(** ** Crossing dates *)

Section crossing.
Variable fromisoformat : string → option datetime.

(** X18. The listing does not compare its two dates: with a
    [from_date] later than the [to_date] it raises nothing and returns
    no rows, sorted or not. *)
Theorem list_animals_crossing_dates sort from_date to_date lo hi db
    (Hfrom : fromisoformat from_date = Some lo)
    (Hto : fromisoformat to_date = Some hi)
    (Hgiven : from_date ≠ EmptyString ∧ to_date ≠ EmptyString)
    (Hcross : hi < lo)
    (Hsort : ¬ unknown_sort sort) :
  list_animals fromisoformat sort (Some from_date) (Some to_date) db = (Ok [], db).
Proof.
  destruct Hgiven as [Hf Ht].
  destruct from_date as [|cf f]; [done|]. destruct to_date as [|ct t]; [done|].
  unfold list_animals, parse_date, all, mbind, session_bind, mret, session_ret, raise.
  cbn [given]. rewrite Hfrom, Hto. simpl.
  assert (filter (λ a, Forall (holds a) [created_at_ge lo; created_at_le hi]) db = [])
    as Hnone.
  { apply head_None, first_None. intros a _ Hall.
    apply Forall_cons in Hall as [Hge [Hle _]%Forall_cons]. simpl in Hge, Hle. lia. }
  unfold unknown_sort in Hsort.
  destruct (given sort) as [s|]; simpl.
  - repeat case_bool_decide; simpl; rewrite ?Hnone; try done. by destruct Hsort.
  - by rewrite Hnone.
Qed.

End crossing.

Lemma list_animals_crossing_dates_witness :
  (zoo_dates "1970-01-01T00:00:00.000020" = Some 20
   ∧ zoo_dates "1970-01-01T00:00:00.000015" = Some 15
   ∧ ("1970-01-01T00:00:00.000020" ≠ EmptyString
      ∧ "1970-01-01T00:00:00.000015" ≠ EmptyString)
   ∧ 15 < 20 ∧ ¬ unknown_sort (Some "name"))
  ∧ list_animals zoo_dates (Some "name") (Some "1970-01-01T00:00:00.000020")
      (Some "1970-01-01T00:00:00.000015") zoo = (Ok [], zoo).
Proof.
  assert (¬ unknown_sort (Some "name")) as Hsort by (by intros [? _]).
  split; [by split_and!|].
  assert ("1970-01-01T00:00:00.000020" ≠ EmptyString
          ∧ "1970-01-01T00:00:00.000015" ≠ EmptyString) as Hgiven by done.
  assert (15 < 20) as Hcross by lia.
  exact (list_animals_crossing_dates zoo_dates (Some "name")
           "1970-01-01T00:00:00.000020" "1970-01-01T00:00:00.000015" 20 15 zoo
           eq_refl eq_refl Hgiven Hcross Hsort).
Defined.
